(** * declarative-rules: first-match rule dispatch with a memoizing wrapper

    A shallow embedding of [src/index.ts]: the [Rules] class (an
    insertion-ordered [Map] from predicate functions to values plus a
    [_default] field), the evaluator [baseApplyRules], and the wrapper
    [memoize] whose cache is keyed by the identity of the [Rules] object
    and by [JSON.stringify] of the context. *)

From stdpp Require Import base option list strings gmap pretty.
From Stdlib Require Import ZArith.

Local Open Scope string_scope.
Local Open Scope list_scope.

(** ** Run-time values, errors and completions *)

(** Function objects are compared by reference; a function value carries
    the identity of its object. *)
Definition fn_id := nat.

Inductive val : Type :=
  | VNull
  | VUndefined
  | VBool (b : bool)
  | VNum (n : Z)
  | VStr (s : string)
  | VFun (f : fn_id).

#[global] Instance val_eq_dec : EqDecision val.
Proof. solve_decision. Defined.

(** The [typeof] operator. *)
Definition typeof (v : val) : string :=
  match v with
  | VNull => "object"
  | VUndefined => "undefined"
  | VBool _ => "boolean"
  | VNum _ => "number"
  | VStr _ => "string"
  | VFun _ => "function"
  end.

(** [v !== null] *)
Definition strict_ne_null (v : val) : bool :=
  match v with
  | VNull => false
  | _ => true
  end.

(** An error object: [name] is the kind the constructor gives it,
    [message] the text passed to the constructor. *)
Record JsError : Type := mkJsError { name : string; message : string }.

#[global] Instance JsError_eq_dec : EqDecision JsError.
Proof. solve_decision. Defined.

(** [new Error(msg)] *)
Definition new_Error (msg : string) : JsError :=
  {| name := "Error"; message := msg |}.

(** What the engine raises when a non-function is called. *)
Definition new_TypeError (msg : string) : JsError :=
  {| name := "TypeError"; message := msg |}.

Inductive completion (A : Type) : Type :=
  | Normal (a : A)
  | Throw (e : JsError).
Arguments Normal {A} a.
Arguments Throw {A} e.

(** ** The built-in [Map]: keys in insertion order *)

Module JsMap.

Definition t : Type := list (val * val).

Definition empty : t := [].

(** [Map.prototype.set]: a key already present keeps its position and
    gets the new value; a new key is appended. *)
Fixpoint set (k v : val) (m : t) : t :=
  match m with
  | [] => [(k, v)]
  | (k', v') :: rest =>
      if decide (k' = k) then (k', v) :: rest else (k', v') :: set k v rest
  end.

(** [Map.prototype.entries], in insertion order. *)
Definition entries (m : t) : list (val * val) := m.

Definition keys (m : t) : list val := m.*1.

End JsMap.

(** ** The [Rules] class *)

Record Rules : Type := mkRules {
  _rules : JsMap.t;
  _default : val
}.

(** [new Rules()] *)
Definition new_Rules : Rules :=
  {| _rules := JsMap.empty; _default := VNull |}.

Definition setRule (condition value : val) (this : Rules) : completion Rules :=
  if negb (String.eqb (typeof condition) "function") then
    Throw (new_Error "Rule condition must be a function.")
  else
    Normal {| _rules := JsMap.set condition value (_rules this);
              _default := _default this |}.

Definition setDefault (value : val) (this : Rules) : Rules :=
  {| _rules := _rules this; _default := value |}.

Definition getRules (this : Rules) : list (val * val) :=
  JsMap.entries (_rules this).

Definition getDefault (this : Rules) : val := _default this.

(** What the builder maintains: the keys of [_rules] are function
    objects, each present once. *)
Definition is_function (v : val) : Prop := typeof v = "function".

Record Rules_inv (R : Rules) : Prop := {
  inv_functions : Forall is_function (JsMap.keys (_rules R));
  inv_nodup : NoDup (JsMap.keys (_rules R))
}.

(** Rule sets obtained from [new Rules()] through the builder. *)
Inductive constructed : Rules -> Prop :=
  | constructed_new : constructed new_Rules
  | constructed_setRule R R' condition value :
      constructed R ->
      setRule condition value R = Normal R' ->
      constructed R'
  | constructed_setDefault R value :
      constructed R ->
      constructed (setDefault value R).

(** ** The store: [Rules] objects by identity, and the cache of [memoize] *)

Definition loc := nat.

(** [cache] is the [WeakMap] created by [memoize]: from the identity of a
    [Rules] object to its inner [Map<string, T>]. *)
Record Store : Type := mkStore {
  heap : gmap loc Rules;
  cache : gmap loc (gmap string val)
}.

(** The cache entry for a ([Rules] identity, key) pair, if any. *)
Definition cached (σ : Store) (rules : loc) (key : string) : option val :=
  cache σ !! rules ≫= λ innerCache, innerCache !! key.

(** [new Rules()] on the store. *)
Definition call_new (σ : Store) : loc * Store :=
  let this := fresh (dom (heap σ)) in
  (this, {| heap := <[this := new_Rules]> (heap σ); cache := cache σ |}).

(** [this.setRule(condition, value)]: returns [this], or throws and leaves
    the object as it was. *)
Definition call_setRule (this : loc) (condition value : val) (σ : Store)
  : option (completion loc * Store) :=
  R ← heap σ !! this;
  match setRule condition value R with
  | Throw e => Some (Throw e, σ)
  | Normal R' =>
      Some (Normal this, {| heap := <[this := R']> (heap σ); cache := cache σ |})
  end.

(** [this.setDefault(value)] *)
Definition call_setDefault (this : loc) (value : val) (σ : Store)
  : option (loc * Store) :=
  R ← heap σ !! this;
  Some (this, {| heap := <[this := setDefault value R]> (heap σ);
                 cache := cache σ |}).

(** ** Test fixtures: contexts of the shape [{x: n}] *)

Module Fixtures.

Definition Args : Type := Z.

Definition dquote : string := String (Ascii.ascii_of_nat 34) EmptyString.

(** [JSON.stringify({x: n})] *)
Definition JSON_stringify (args : Args) : string :=
  "{" +:+ dquote +:+ "x" +:+ dquote +:+ ":" +:+ pretty args +:+ "}".

(** Function objects of the tests: 0 is [({x}) => x > 10], 1 is
    [({x}) => x > 0], 2 is [() => true]; any other is [() => false]. *)
Definition fn_body (f : fn_id) (args : Args) : bool :=
  match f with
  | 0 => bool_decide (10 < args)%Z
  | 1 => bool_decide (0 < args)%Z
  | 2 => true
  | _ => false
  end.

(** [new Rules().setRule(({x}) => x > 10, 'large')] *)
Definition largeRules : Rules :=
  {| _rules := [(VFun 0, VStr "large")]; _default := VNull |}.

(** [new Rules().setRule(({x}) => x > 0, 'positive').setDefault('not positive')] *)
Definition positiveRules : Rules :=
  {| _rules := [(VFun 1, VStr "positive")]; _default := VStr "not positive" |}.

(** Three rules in a row, the last of which matches every context:
    [x > 10] gives 'large', [x > 0] gives 'positive', [true] gives 'any'. *)
Definition sizeRules : Rules :=
  {| _rules := [(VFun 0, VStr "large"); (VFun 1, VStr "positive");
                (VFun 2, VStr "any")];
     _default := VNull |}.

(** A store holding one [Rules] object, at reference 0, and a cache with
    nothing in it. *)
Definition store_of (R : Rules) : Store :=
  {| heap := {[ 0 := R ]}; cache := ∅ |}.

(** The same store once the wrapper has created the inner map of the
    object. *)
Definition store_with_inner (R : Rules) (inner : gmap string val) : Store :=
  {| heap := {[ 0 := R ]}; cache := {[ 0 := inner ]} |}.

End Fixtures.

(** ** The fixtures of the tests: user roles *)

Module UserRoles.

Module User.
Record t : Type := mk {
  username : string;
  postCount : Z;
  isModerator : bool
}.
End User.

(** The context [{ user }]. *)
Record Args : Type := mkArgs { user : User.t }.

(** The function objects [isAdmin], [isModerator] and [isPowerUser]. *)
Definition isAdmin : fn_id := 0.
Definition isModerator : fn_id := 1.
Definition isPowerUser : fn_id := 2.

Definition fn_body (f : fn_id) (args : Args) : bool :=
  match f with
  | 0 => bool_decide (User.username (user args) = "admin")
  | 1 => User.isModerator (user args)
  | 2 => bool_decide (100 < User.postCount (user args))%Z
  | _ => false
  end.

Definition userRoleRules : Rules :=
  {| _rules := [(VFun isAdmin, VStr "Administrator");
                (VFun isModerator, VStr "Moderator");
                (VFun isPowerUser, VStr "Power User")];
     _default := VStr "Member" |}.

End UserRoles.

(** ** The fixtures of the tests: nested rules for shipping *)

Module Shipping.

Inductive Destination : Type := domestic | international.

Module ShippingArgs.
Record t : Type := mk {
  weight : Z;
  destination : Destination;
  isFragile : bool;
  isHighValue : bool
}.
End ShippingArgs.

Record ShippingInfo : Type := mkShippingInfo {
  cost : Z;
  description : val
}.

(** The function objects [isHeavyAndInternational], [isFragile] and
    [isHighValue]. *)
Definition isHeavyAndInternational : fn_id := 0.
Definition isFragile : fn_id := 1.
Definition isHighValue : fn_id := 2.

Definition fn_body (f : fn_id) (args : ShippingArgs.t) : bool :=
  match f with
  | 0 => bool_decide (50 < ShippingArgs.weight args)%Z &&
         match ShippingArgs.destination args with
         | international => true
         | domestic => false
         end
  | 1 => ShippingArgs.isFragile args
  | 2 => ShippingArgs.isHighValue args
  | _ => false
  end.

Definition descriptionRules : Rules :=
  {| _rules := [(VFun isHighValue, VStr "Requires signature and insurance.");
                (VFun isFragile, VStr "Handled with extreme care.")];
     _default := VStr "Standard international handling." |}.

(** The values of [shippingCostRules] are the function objects 10, 11 and
    12, each of the shape
    [(args) => ({cost: c, description: applyRules(args, descriptionRules)})];
    [resolver_cost] gives the [c] of each. *)
Definition shippingCostRules : Rules :=
  {| _rules := [(VFun isHeavyAndInternational, VFun 10);
                (VFun isFragile, VFun 11)];
     _default := VFun 12 |}.

Definition resolver_cost (f : fn_id) : option Z :=
  match f with
  | 10 => Some 150%Z
  | 11 => Some 55%Z
  | 12 => Some 25%Z
  | _ => None
  end.

Definition dquote : string := String (Ascii.ascii_of_nat 34) EmptyString.

Definition quoted (s : string) : string := dquote +:+ s +:+ dquote.

(** [JSON.stringify] on a [ShippingArgs] object whose keys are in the order
    of the type. *)
Definition JSON_stringify (args : ShippingArgs.t) : string :=
  "{" +:+ quoted "weight" +:+ ":" +:+ pretty (ShippingArgs.weight args) +:+
  "," +:+ quoted "destination" +:+ ":" +:+
    quoted (match ShippingArgs.destination args with
            | domestic => "domestic"
            | international => "international"
            end) +:+
  "," +:+ quoted "isFragile" +:+ ":" +:+
    (if ShippingArgs.isFragile args then "true" else "false") +:+
  "," +:+ quoted "isHighValue" +:+ ":" +:+
    (if ShippingArgs.isHighValue args then "true" else "false") +:+
  "}".

(** A store with [shippingCostRules] at reference 0, [descriptionRules] at
    reference 1 and the given cache. *)
Definition store (c : gmap loc (gmap string val)) : Store :=
  {| heap := {[ 0 := shippingCostRules; 1 := descriptionRules ]}; cache := c |}.

End Shipping.

(** ** The evaluator and the memoizing wrapper *)

Section Engine.

Variable Args : Type.

(** [JSON.stringify] on contexts. *)
Variable JSON_stringify : Args -> string.

(** What the function object [f] returns on a context; predicates are
    pure and total. *)
Variable fn_body : fn_id -> Args -> bool.

(** [condition(args)] *)
Definition call (condition : val) (args : Args) : completion bool :=
  match condition with
  | VFun f => Normal (fn_body f args)
  | _ => Throw (new_TypeError "condition is not a function")
  end.

(** The [for ... of rules.getRules()] loop of [baseApplyRules]. The first
    component lists the conditions invoked, in order; [Normal None] means
    the loop ran to its end. *)
Fixpoint for_of_rules (args : Args) (entries : list (val * val))
  : list val * completion (option val) :=
  match entries with
  | [] => ([], Normal None)
  | (condition, value) :: rest =>
      match call condition args with
      | Throw e => ([], Throw e)
      | Normal true => ([condition], Normal (Some value))
      | Normal false =>
          let '(invoked, r) := for_of_rules args rest in
          (condition :: invoked, r)
      end
  end.

Definition baseApplyRules (args : Args) (rules : Rules)
  : list val * completion val :=
  let '(invoked, r) := for_of_rules args (getRules rules) in
  match r with
  | Throw e => (invoked, Throw e)
  | Normal (Some value) => (invoked, Normal value)
  | Normal None =>
      let defaultValue := getDefault rules in
      if strict_ne_null defaultValue then (invoked, Normal defaultValue)
      else
        (invoked,
         Throw (new_Error
                  "Rules set is missing a default and no conditions were met."))
  end.

(** The function returned by [memoize(applyFn)]. [rules] is a reference;
    [applyFn] sees the object it points to now. [None] stands for a
    reference to no object, which no program has. *)
Definition memoize
    (applyFn : Args -> Rules -> list val * completion val)
    (args : Args) (rules : loc) (σ : Store)
  : option (list val * completion val * Store) :=
  R ← heap σ !! rules;
  let cache1 :=
    match cache σ !! rules with
    | Some _ => cache σ
    | None => <[rules := ∅]> (cache σ)
    end in
  let innerCache := default ∅ (cache1 !! rules) in
  let key := JSON_stringify args in
  match innerCache !! key with
  | Some hit => Some ([], Normal hit, {| heap := heap σ; cache := cache1 |})
  | None =>
      let '(invoked, r) := applyFn args R in
      match r with
      | Throw e => Some (invoked, Throw e, {| heap := heap σ; cache := cache1 |})
      | Normal result =>
          Some (invoked, Normal result,
                {| heap := heap σ;
                   cache := <[rules := <[key := result]> innerCache]> cache1 |})
      end
  end.

Definition applyRules : Args -> loc -> Store
  -> option (list val * completion val * Store) :=
  memoize baseApplyRules.

(** Calls a client can make, and the store after a sequence of them; a
    client may catch what a call throws and go on. *)
Inductive client_call : Type :=
  | NewRules
  | SetRule (this : loc) (condition value : val)
  | SetDefault (this : loc) (value : val)
  | ApplyRules (args : Args) (rules : loc).

Definition exec (c : client_call) (σ : Store) : option Store :=
  match c with
  | NewRules => Some (call_new σ).2
  | SetRule this condition value => snd <$> call_setRule this condition value σ
  | SetDefault this value => snd <$> call_setDefault this value σ
  | ApplyRules args rules => snd <$> applyRules args rules σ
  end.

Fixpoint exec_all (cs : list client_call) (σ : Store) : option Store :=
  match cs with
  | [] => Some σ
  | c :: rest => σ' ← exec c σ; exec_all rest σ'
  end.

(** Every condition of [entries] returns false on [args]. *)
Definition all_false (args : Args) (entries : list (val * val)) : Prop :=
  Forall (λ e, call e.1 args = Normal false) entries.

(** No condition of the rule set returns true on [args]. *)
Definition no_match (args : Args) (R : Rules) : Prop :=
  all_false args (getRules R).

(** Some condition of the rule set returns true on [args]. *)
Definition some_match (args : Args) (R : Rules) : Prop :=
  ∃ e, e ∈ getRules R ∧ call e.1 args = Normal true.

(** A function object [(args) => ({cost: c, description:
    applyRules(args, descriptionRules)})] called on [args]: the nested call
    goes through the same memoized [applyRules]. *)
Definition call_resolver (c : Z) (descriptionRules : loc)
    (args : Args) (σ : Store)
  : option (list val * completion Shipping.ShippingInfo * Store) :=
  '(invoked, r, σ') ← applyRules args descriptionRules σ;
  match r with
  | Throw e => Some (invoked, Throw e, σ')
  | Normal d =>
      Some (invoked,
            Normal {| Shipping.cost := c; Shipping.description := d |}, σ')
  end.

(** [const resolver = applyRules(args, shippingCostRules);
    const result = resolver(args);] as the tests of the nested rules do.
    [resolver_cost f] is the cost in the body of the function object [f];
    [None] is for a function object of another shape, which these rule
    sets do not hold. *)
Definition resolve_nested (resolver_cost : fn_id -> option Z)
    (shippingCostRules descriptionRules : loc) (args : Args) (σ : Store)
  : option (list val * completion Shipping.ShippingInfo * Store) :=
  '(invoked1, resolver, σ1) ← applyRules args shippingCostRules σ;
  match resolver with
  | Throw e => Some (invoked1, Throw e, σ1)
  | Normal (VFun f) =>
      c ← resolver_cost f;
      '(invoked2, result, σ2) ← call_resolver c descriptionRules args σ1;
      Some (invoked1 ++ invoked2, result, σ2)
  | Normal _ =>
      Some (invoked1, Throw (new_TypeError "resolver is not a function"), σ1)
  end.

(** The cache tells the truth about the objects as they are now: an entry
    is what the evaluator returns on every context that has its key. *)
Definition cache_agrees (σ : Store) : Prop :=
  ∀ rules key hit, cached σ rules key = Some hit →
    ∃ R, heap σ !! rules = Some R ∧
      ∀ args, JSON_stringify args = key →
              (baseApplyRules args R).2 = Normal hit.

(** The object has not been evaluated yet: the cache holds nothing for it. *)
Definition not_evaluated (σ : Store) (rules : loc) : Prop :=
  ∀ key, cached σ rules key = None.

(** The builder is used on an object only before its first evaluation. *)
Definition build_before_use (c : client_call) (σ : Store) : Prop :=
  match c with
  | SetRule this _ _ => not_evaluated σ this
  | SetDefault this _ => not_evaluated σ this
  | _ => True
  end.

(** Every object of the store is as the builder leaves it, and the cache
    holds inner maps for objects of the store only. *)
Definition Store_inv (σ : Store) : Prop :=
  (∀ rules R, heap σ !! rules = Some R → Rules_inv R) ∧
  (∀ rules, is_Some (cache σ !! rules) → is_Some (heap σ !! rules)).

(** [build_before_use] at every call of a sequence, in the store the call
    is made in. *)
Fixpoint build_before_use_all (cs : list client_call) (σ : Store) : Prop :=
  match cs with
  | [] => True
  | c :: rest =>
      build_before_use c σ ∧
      ∀ σ', exec c σ = Some σ' → build_before_use_all rest σ'
  end.

(** ** Facts about [typeof], [Map] and the builder *)

Lemma is_function_VFun (v : val) : is_function v ↔ ∃ f, v = VFun f.
Proof.
  unfold is_function. split.
  - destruct v; simpl; intros H; try discriminate H. eauto.
  - intros [f ->]. reflexivity.
Qed.

Lemma typeof_eqb_function (v : val) :
  String.eqb (typeof v) "function" = true ↔ is_function v.
Proof. unfold is_function. apply String.eqb_eq. Qed.

Lemma setRule_function (condition value : val) (R : Rules) :
  is_function condition →
  setRule condition value R =
    Normal {| _rules := JsMap.set condition value (_rules R);
              _default := _default R |}.
Proof.
  intros H. unfold setRule.
  apply typeof_eqb_function in H. rewrite H. reflexivity.
Qed.

Lemma setRule_not_function (condition value : val) (R : Rules) :
  ¬ is_function condition →
  setRule condition value R =
    Throw (new_Error "Rule condition must be a function.").
Proof.
  intros H. unfold setRule.
  destruct (String.eqb (typeof condition) "function") eqn:E; [|reflexivity].
  apply typeof_eqb_function in E. contradiction.
Qed.

Lemma setRule_Normal_inv (condition value : val) (R R' : Rules) :
  setRule condition value R = Normal R' →
  is_function condition ∧
  R' = {| _rules := JsMap.set condition value (_rules R);
          _default := _default R |}.
Proof.
  unfold setRule.
  destruct (String.eqb (typeof condition) "function") eqn:E; simpl.
  - intros [= <-]. split; [by apply typeof_eqb_function | done].
  - discriminate.
Qed.

Lemma JsMap_set_fresh (k v : val) (m : JsMap.t) :
  k ∉ JsMap.keys m → JsMap.set k v m = m ++ [(k, v)].
Proof.
  unfold JsMap.keys. induction m as [|[k' v'] m IH]; simpl; intros Hk.
  - reflexivity.
  - apply not_elem_of_cons in Hk as [Hne Hk].
    destruct (decide (k' = k)) as [->|_]; [done|].
    by rewrite IH.
Qed.

Lemma JsMap_set_present (k v w : val) (pre post : JsMap.t) :
  k ∉ JsMap.keys pre →
  JsMap.set k v (pre ++ (k, w) :: post) = pre ++ (k, v) :: post.
Proof.
  unfold JsMap.keys. induction pre as [|[k' v'] pre IH]; simpl; intros Hk.
  - by rewrite decide_True.
  - apply not_elem_of_cons in Hk as [Hne Hk].
    destruct (decide (k' = k)) as [->|_]; [done|].
    by rewrite IH.
Qed.

Lemma JsMap_set_keys (k v : val) (m : JsMap.t) :
  JsMap.keys (JsMap.set k v m) =
    if decide (k ∈ JsMap.keys m) then JsMap.keys m else JsMap.keys m ++ [k].
Proof.
  unfold JsMap.keys. induction m as [|[k' v'] m IH].
  - reflexivity.
  - cbn [JsMap.set]. destruct (decide (k' = k)) as [->|Hne];
      rewrite !fmap_cons; cbn [fst].
    + rewrite decide_True; [done | apply list_elem_of_here].
    + rewrite IH. destruct (decide (k ∈ m.*1)) as [Hin|Hnin].
      * rewrite decide_True; [done | by apply list_elem_of_further].
      * rewrite decide_False; [done|].
        intros [?|?]%elem_of_cons; [congruence | done].
Qed.

Lemma new_Rules_inv : Rules_inv new_Rules.
Proof. split; simpl; [apply Forall_nil_2 | apply NoDup_nil_2]. Qed.

Lemma setRule_inv (condition value : val) (R R' : Rules) :
  Rules_inv R → setRule condition value R = Normal R' → Rules_inv R'.
Proof.
  intros [Hf Hn] [Hc ->]%setRule_Normal_inv. split; simpl;
    rewrite JsMap_set_keys; case_decide; try done.
  - apply Forall_app. split; [done|]. by apply Forall_singleton.
  - apply NoDup_app. split_and!; [done | | apply NoDup_singleton].
    intros x Hx Hk%list_elem_of_singleton. by subst x.
Qed.

Lemma setDefault_inv (value : val) (R : Rules) :
  Rules_inv R → Rules_inv (setDefault value R).
Proof. intros [Hf Hn]. by split. Qed.

Lemma constructed_inv (R : Rules) : constructed R → Rules_inv R.
Proof.
  induction 1 as [|R R' c v _ IH Hs|R v _ IH].
  - apply new_Rules_inv.
  - by eapply setRule_inv.
  - by apply setDefault_inv.
Qed.

(** ** Facts about the evaluator *)

Lemma for_of_rules_all_false (args : Args) (entries : list (val * val)) :
  all_false args entries →
  for_of_rules args entries = (entries.*1, Normal None).
Proof.
  induction 1 as [|[p v] rest Hp _ IH]; [reflexivity|].
  cbn [for_of_rules]. cbn beta iota delta [fst] in Hp. rewrite Hp, IH. reflexivity.
Qed.

Lemma for_of_rules_first_match (args : Args)
    (pre post : list (val * val)) (p v : val) :
  all_false args pre →
  call p args = Normal true →
  for_of_rules args (pre ++ (p, v) :: post) = (pre.*1 ++ [p], Normal (Some v)).
Proof.
  intros Hpre Hp. induction Hpre as [|[q w] rest Hq _ IH].
  - cbn [app for_of_rules]. rewrite Hp. reflexivity.
  - cbn beta iota delta [fst] in Hq. rewrite <- app_comm_cons. cbn [for_of_rules].
    rewrite Hq, IH. reflexivity.
Qed.

Lemma first_match_split (args : Args) (entries : list (val * val)) :
  Forall is_function entries.*1 →
  (∃ e, e ∈ entries ∧ call e.1 args = Normal true) →
  ∃ pre p v post,
    entries = pre ++ (p, v) :: post ∧
    all_false args pre ∧
    call p args = Normal true.
Proof.
  induction entries as [|[q w] rest IH]; intros Hf [e [He Hm]].
  - by apply elem_of_nil in He.
  - rewrite fmap_cons in Hf. apply Forall_cons in Hf as [Hq Hf].
    cbn [fst] in Hq. apply is_function_VFun in Hq as [f ->].
    destruct (fn_body f args) eqn:Hb.
    + exists [], (VFun f), w, rest. split_and!; [done | apply Forall_nil_2|].
      cbn. by rewrite Hb.
    + destruct IH as (pre & p & v & post & -> & Hpre & Hp); [done | |].
      * exists e. split; [|done].
        apply elem_of_cons in He as [->|He]; [|done].
        cbn in Hm. rewrite Hb in Hm. discriminate.
      * exists ((VFun f, w) :: pre), p, v, post. split_and!; [done | | done].
        apply Forall_cons. split; [|done]. cbn. by rewrite Hb.
Qed.

Lemma baseApplyRules_first_match (args : Args) (R : Rules)
    (pre post : list (val * val)) (p v : val) :
  getRules R = pre ++ (p, v) :: post →
  all_false args pre →
  call p args = Normal true →
  baseApplyRules args R = (pre.*1 ++ [p], Normal v).
Proof.
  intros HR Hpre Hp. unfold baseApplyRules.
  rewrite HR, (for_of_rules_first_match _ _ _ _ _ Hpre Hp). reflexivity.
Qed.

Lemma baseApplyRules_no_match (args : Args) (R : Rules) :
  no_match args R →
  baseApplyRules args R =
    ((getRules R).*1,
     if strict_ne_null (getDefault R) then Normal (getDefault R)
     else Throw (new_Error
                   "Rules set is missing a default and no conditions were met.")).
Proof.
  intros H. unfold baseApplyRules.
  rewrite (for_of_rules_all_false _ _ H).
  by destruct (strict_ne_null (getDefault R)).
Qed.

Lemma strict_ne_null_true (v : val) : strict_ne_null v = true ↔ v ≠ VNull.
Proof. destruct v; cbn; split; congruence. Qed.

(** ** Facts about the wrapper and its cache *)

Lemma Store_eta (σ : Store) : {| heap := heap σ; cache := cache σ |} = σ.
Proof. by destruct σ. Qed.

(** What a call of the memoized function does, by cases on the cache. *)
Lemma applyRules_inv (args : Args) (rules : loc) (σ σ' : Store)
    (invoked : list val) (r : completion val) :
  applyRules args rules σ = Some (invoked, r, σ') →
  ∃ R, heap σ !! rules = Some R ∧ heap σ' = heap σ ∧
    is_Some (cache σ' !! rules) ∧
    ((∃ hit, cached σ rules (JSON_stringify args) = Some hit ∧
             invoked = [] ∧ r = Normal hit ∧ σ' = σ)
     ∨ (cached σ rules (JSON_stringify args) = None ∧
        baseApplyRules args R = (invoked, r) ∧
        cached σ' rules (JSON_stringify args) =
          match r with Normal result => Some result | Throw _ => None end ∧
        ∀ rules' key hit, cached σ rules' key = Some hit →
                          cached σ' rules' key = Some hit)).
Proof.
  unfold applyRules, memoize, cached. intros H.
  destruct (heap σ !! rules) as [R|] eqn:HR; [|discriminate].
  exists R. split; [done|]. cbn [mbind option_bind] in H.
  destruct (cache σ !! rules) as [inner|] eqn:Hc.
  - rewrite Hc in H. cbn [default from_option id] in H. cbn [mbind option_bind].
    destruct (inner !! JSON_stringify args) as [hit|] eqn:Hk.
    + injection H as <- <- <-. split; [done|]. cbn [cache].
      split; [by rewrite Hc|]. left. exists hit.
      by rewrite Store_eta.
    + destruct (baseApplyRules args R) as [t [result|e]];
        injection H as <- <- <-; (split; [done|]); cbn [cache];
        (split; [by rewrite ?lookup_insert_eq, ?Hc|]); right.
      * split_and!; [done | done | |].
        { rewrite lookup_insert_eq. cbn [mbind option_bind].
          by rewrite lookup_insert_eq. }
        intros rules' key hit.
        destruct (decide (rules' = rules)) as [->|Hne].
        -- rewrite Hc, lookup_insert_eq. cbn [mbind option_bind].
           intros Hh. rewrite lookup_insert_ne; [done|]. congruence.
        -- by rewrite lookup_insert_ne.
      * rewrite Hc. by split_and!.
  - rewrite lookup_insert_eq in H. cbn [default from_option id] in H.
    rewrite lookup_empty in H. cbn [mbind option_bind].
    destruct (baseApplyRules args R) as [t [result|e]];
      injection H as <- <- <-; (split; [done|]); cbn [cache];
      (split; [by rewrite ?lookup_insert_eq|]); right.
    + split_and!; [done | done | |].
      { rewrite lookup_insert_eq. cbn [mbind option_bind].
        by rewrite lookup_insert_eq. }
      intros rules' key hit.
      destruct (decide (rules' = rules)) as [->|Hne].
      * by rewrite Hc.
      * by rewrite !lookup_insert_ne.
    + split_and!; [done | done | by rewrite lookup_insert_eq |].
      intros rules' key hit.
      destruct (decide (rules' = rules)) as [->|Hne].
      * by rewrite Hc.
      * by rewrite lookup_insert_ne.
Qed.

(** A call that throws where the inner map exists leaves the store as it
    is. *)
Lemma applyRules_throw_again (args : Args) (rules : loc) (σ : Store)
    (R : Rules) (invoked : list val) (e : JsError) :
  heap σ !! rules = Some R →
  is_Some (cache σ !! rules) →
  cached σ rules (JSON_stringify args) = None →
  baseApplyRules args R = (invoked, Throw e) →
  applyRules args rules σ = Some (invoked, Throw e, σ).
Proof.
  unfold applyRules, memoize, cached. intros -> [inner Hi] Hc Hb.
  cbn [mbind option_bind]. rewrite Hi in Hc |- *.
  cbn [mbind option_bind] in Hc. rewrite Hi.
  cbn [default from_option id]. rewrite Hc, Hb. by rewrite Store_eta.
Qed.

Lemma applyRules_hit (args : Args) (rules : loc) (σ : Store)
    (R : Rules) (hit : val) :
  heap σ !! rules = Some R →
  cached σ rules (JSON_stringify args) = Some hit →
  applyRules args rules σ = Some ([], Normal hit, σ).
Proof.
  unfold applyRules, memoize, cached. intros -> Hc. cbn [mbind option_bind].
  destruct (cache σ !! rules) as [inner|] eqn:Hi; [|discriminate].
  cbn [mbind option_bind] in Hc. rewrite Hi. cbn [default from_option id]. rewrite Hc.
  by rewrite Store_eta.
Qed.

Lemma applyRules_miss (args : Args) (rules : loc) (σ : Store) (R : Rules) :
  heap σ !! rules = Some R →
  cached σ rules (JSON_stringify args) = None →
  ∃ σ', applyRules args rules σ =
          Some ((baseApplyRules args R).1, (baseApplyRules args R).2, σ').
Proof.
  unfold applyRules, memoize, cached. intros -> Hc. cbn [mbind option_bind].
  destruct (cache σ !! rules) as [inner|] eqn:Hi.
  - cbn [mbind option_bind] in Hc. rewrite Hi. cbn [default from_option id]. rewrite Hc.
    destruct (baseApplyRules args R) as [t [result|e]]; eauto.
  - rewrite lookup_insert_eq. cbn [default from_option id]. rewrite lookup_empty.
    destruct (baseApplyRules args R) as [t [result|e]]; eauto.
Qed.

Lemma exec_preserves (c : client_call) (σ σ' : Store) :
  exec c σ = Some σ' →
  (∀ rules, is_Some (heap σ !! rules) → is_Some (heap σ' !! rules)) ∧
  (∀ rules key hit, cached σ rules key = Some hit →
                    cached σ' rules key = Some hit).
Proof.
  destruct c as [|this condition value|this value|args rules0]; cbn [exec].
  - intros [= <-]. split; [|done]. intros rules Hr. cbn.
    rewrite lookup_insert. case_decide; [eauto | done].
  - unfold call_setRule. destruct (heap σ !! this) as [R|] eqn:HR; [|done].
    cbn. destruct (setRule condition value R) as [R'|e]; cbn; intros [= <-].
    + split; [|done]. intros rules Hr. cbn.
      rewrite lookup_insert. case_decide; [eauto | done].
    + done.
  - unfold call_setDefault. destruct (heap σ !! this) as [R|] eqn:HR; [|done].
    cbn. intros [= <-]. split; [|done]. intros rules Hr. cbn.
    rewrite lookup_insert. case_decide; [eauto | done].
  - destruct (applyRules args rules0 σ) as [[[t r] σ1]|] eqn:Ha; [|done].
    cbn. intros [= <-].
    apply applyRules_inv in Ha as (R & HR & Hh & _ & [(hit & _ & _ & _ & ->)|H]).
    + done.
    + destruct H as (_ & _ & _ & Hmono). split; [|done].
      intros rules. by rewrite Hh.
Qed.

Lemma exec_all_preserves (cs : list client_call) (σ σ' : Store) :
  exec_all cs σ = Some σ' →
  (∀ rules, is_Some (heap σ !! rules) → is_Some (heap σ' !! rules)) ∧
  (∀ rules key hit, cached σ rules key = Some hit →
                    cached σ' rules key = Some hit).
Proof.
  revert σ. induction cs as [|c cs IH]; intros σ; cbn [exec_all].
  - by intros [= <-].
  - destruct (exec c σ) as [σ1|] eqn:Hc; [|done]. cbn. intros H.
    apply exec_preserves in Hc as [Hh Hk].
    apply IH in H as [Hh' Hk']. split; eauto.
Qed.

(** ** The claims *)

(** C1: if some predicate of the rule set returns true on the context, the
    evaluator returns the value paired with the first such predicate in
    insertion order; it invokes the predicates before that one and that
    one, and no predicate placed after it. The memoized [applyRules] does
    the same whenever the cache has no entry for the call. *)
Theorem C1_first_match_short_circuit
    (σ : Store) (rules : loc) (R : Rules) (args : Args) :
  heap σ !! rules = Some R →
  Rules_inv R →
  some_match args R →
  ∃ pre p v post,
    getRules R = pre ++ (p, v) :: post ∧
    all_false args pre ∧
    call p args = Normal true ∧
    baseApplyRules args R = (pre.*1 ++ [p], Normal v) ∧
    Forall (λ e, e.1 ∉ pre.*1 ++ [p]) post ∧
    (cached σ rules (JSON_stringify args) = None →
     ∃ σ', applyRules args rules σ = Some (pre.*1 ++ [p], Normal v, σ')).
Proof.
  intros HR [Hf Hn] Hm.
  destruct (first_match_split args (getRules R) Hf Hm)
    as (pre & p & v & post & Hsplit & Hpre & Hp).
  exists pre, p, v, post.
  pose proof (baseApplyRules_first_match _ _ _ _ _ _ Hsplit Hpre Hp) as Hbase.
  split_and!; try done.
  - unfold JsMap.keys in Hn. unfold getRules, JsMap.entries in Hsplit.
    rewrite Hsplit, fmap_app, fmap_cons in Hn. cbn [fst] in Hn.
    apply NoDup_app in Hn as (_ & Hdisj & Hn).
    apply NoDup_cons in Hn as [Hp_post _].
    apply Forall_forall. intros [q w] Hq. cbn [fst].
    intros [Hin|Heq%list_elem_of_singleton]%elem_of_app; [|subst q].
    + apply (Hdisj q Hin). apply list_elem_of_further.
      apply list_elem_of_fmap. by exists (q, w).
    + apply Hp_post. apply list_elem_of_fmap. by exists (p, w).
  - intros Hc. destruct (applyRules_miss args rules σ R HR Hc) as [σ' Ha].
    rewrite Hbase in Ha. eauto.
Qed.

(** C2, as the code has it: after [setDefault(v)] with any [v] other than
    [null] (so also [undefined], [false], [0] and the empty string),
    evaluation on a context that matches no predicate returns [v], and
    [getDefault()] gives [v], which is not [null]. There is no presence
    flag: [null] is the mark of an absent default, so [setDefault(null)]
    leaves the rule set in the state of one whose default is not set, and
    evaluation with no match throws. *)
Theorem C2_default_null_is_the_sentinel
    (R : Rules) (v : val) (args : Args) :
  no_match args R →
  (v ≠ VNull →
   baseApplyRules args (setDefault v R) = ((getRules R).*1, Normal v) ∧
   getDefault (setDefault v R) = v ∧
   getDefault (setDefault v R) ≠ getDefault new_Rules) ∧
  (v = VNull →
   baseApplyRules args (setDefault v R) =
     ((getRules R).*1,
      Throw (new_Error
               "Rules set is missing a default and no conditions were met.")) ∧
   getDefault (setDefault v R) = getDefault new_Rules).
Proof.
  intros Hno.
  assert (no_match args (setDefault v R)) as Hno' by exact Hno.
  rewrite (baseApplyRules_no_match _ _ Hno'). cbn [getDefault setDefault _default].
  split.
  - intros Hv. apply strict_ne_null_true in Hv as Hb. rewrite Hb. done.
  - intros ->. done.
Qed.

(** C3, as the code has it: both failures are thrown as plain [Error]
    objects, so they have one and the same kind; what tells them apart is
    the message, that of the builder being
    'Rule condition must be a function.' and that of the evaluator
    'Rules set is missing a default and no conditions were met.'. *)
Theorem C3_errors_differ_by_message_only
    (condition value : val) (R R' : Rules) (args : Args) :
  ¬ is_function condition →
  getDefault R' = VNull →
  no_match args R' →
  ∃ e1 e2,
    setRule condition value R = Throw e1 ∧
    (baseApplyRules args R').2 = Throw e2 ∧
    name e1 = "Error" ∧ name e2 = "Error" ∧
    message e1 = "Rule condition must be a function." ∧
    message e2 = "Rules set is missing a default and no conditions were met." ∧
    message e1 ≠ message e2.
Proof.
  intros Hc Hd Hno.
  exists (new_Error "Rule condition must be a function."),
    (new_Error "Rules set is missing a default and no conditions were met.").
  split_and!; try done.
  - by apply setRule_not_function.
  - rewrite (baseApplyRules_no_match _ _ Hno), Hd. done.
Qed.

(** C4: when a call of the memoized [applyRules] throws, no cache entry is
    stored for the rule set and the key of the context, and the next call
    on the same rule set with a context of the same key goes through the
    evaluator again. *)
Theorem C4_failures_are_not_cached
    (σ σ' : Store) (rules : loc) (args : Args)
    (invoked : list val) (e : JsError) :
  applyRules args rules σ = Some (invoked, Throw e, σ') →
  cached σ' rules (JSON_stringify args) = None ∧
  ∃ R, heap σ' !! rules = Some R ∧
    baseApplyRules args R = (invoked, Throw e) ∧
    applyRules args rules σ' = Some (invoked, Throw e, σ') ∧
    ∀ args', JSON_stringify args' = JSON_stringify args →
      ∃ σ'', applyRules args' rules σ' =
               Some ((baseApplyRules args' R).1, (baseApplyRules args' R).2, σ'').
Proof.
  intros H.
  apply applyRules_inv in H
    as (R & HR & Hh & Hi & [(hit & _ & _ & [=] & _)|(Hc & Hb & Hc' & _)]).
  split; [done|]. exists R. rewrite Hh. split_and!; try done.
  - apply (applyRules_throw_again _ _ _ R); [by rewrite Hh | done..].
  - intros args' Hk. apply applyRules_miss; [by rewrite Hh | by rewrite Hk].
Qed.

(** C5, as the code has it: when a call of the memoized [applyRules]
    returns a value, a following call on the same [Rules] object with a
    context of the same serialization is a cache hit: it returns that value,
    invokes no predicate and leaves the store as it is. (A call that throws
    stores nothing, so the call after it evaluates again.) *)
Theorem C5_second_call_hits_after_success
    (σ σ' : Store) (rules : loc) (args args' : Args)
    (invoked : list val) (v : val) :
  applyRules args rules σ = Some (invoked, Normal v, σ') →
  JSON_stringify args' = JSON_stringify args →
  applyRules args' rules σ' = Some ([], Normal v, σ').
Proof.
  intros H Hk.
  apply applyRules_inv in H
    as (R & HR & Hh & _ & [(hit & Hc & _ & [= <-] & ->)|(_ & _ & Hc' & _)]).
  - apply (applyRules_hit _ _ _ R); [done | by rewrite Hk].
  - apply (applyRules_hit _ _ _ R); [by rewrite Hh | by rewrite Hk].
Qed.

(** C6: on a rule set without a default, a context on which no predicate
    returns true makes the evaluator throw the error 'Rules set is missing
    a default and no conditions were met.', after every predicate has been
    invoked; so does the memoized [applyRules] when the cache has no entry
    for the call. *)
Theorem C6_no_match_no_default_throws
    (σ : Store) (rules : loc) (R : Rules) (args : Args) :
  heap σ !! rules = Some R →
  getDefault R = VNull →
  no_match args R →
  baseApplyRules args R =
    ((getRules R).*1,
     Throw (new_Error
              "Rules set is missing a default and no conditions were met.")) ∧
  (cached σ rules (JSON_stringify args) = None →
   ∃ σ', applyRules args rules σ =
           Some ((getRules R).*1,
                 Throw (new_Error
                   "Rules set is missing a default and no conditions were met."),
                 σ')).
Proof.
  intros HR Hd Hno.
  pose proof (baseApplyRules_no_match _ _ Hno) as Hb.
  rewrite Hd in Hb. cbn [strict_ne_null] in Hb. split; [done|].
  intros Hc. destruct (applyRules_miss args rules σ R HR Hc) as [σ' Ha].
  rewrite Hb in Ha. eauto.
Qed.

(** C7: on a rule set with a default, a context on which no predicate
    returns true makes the evaluator return the default, after every
    predicate has been invoked; so does the memoized [applyRules] when the
    cache has no entry for the call. *)
Theorem C7_no_match_returns_default
    (σ : Store) (rules : loc) (R : Rules) (args : Args) :
  heap σ !! rules = Some R →
  getDefault R ≠ VNull →
  no_match args R →
  baseApplyRules args R = ((getRules R).*1, Normal (getDefault R)) ∧
  (cached σ rules (JSON_stringify args) = None →
   ∃ σ', applyRules args rules σ =
           Some ((getRules R).*1, Normal (getDefault R), σ')).
Proof.
  intros HR Hd Hno.
  pose proof (baseApplyRules_no_match _ _ Hno) as Hb.
  apply strict_ne_null_true in Hd. rewrite Hd in Hb. split; [done|].
  intros Hc. destruct (applyRules_miss args rules σ R HR Hc) as [σ' Ha].
  rewrite Hb in Ha. eauto.
Qed.

(** C8: [setRule] with a first argument that is not a function throws the
    error 'Rule condition must be a function.' and leaves the rule set as
    it was: entries, their order and the default (and the rest of the
    store) are untouched. *)
Theorem C8_setRule_rejects_non_function
    (σ : Store) (this : loc) (R : Rules) (condition value : val) :
  heap σ !! this = Some R →
  typeof condition ≠ "function" →
  setRule condition value R =
    Throw (new_Error "Rule condition must be a function.") ∧
  call_setRule this condition value σ =
    Some (Throw (new_Error "Rule condition must be a function."), σ).
Proof.
  intros HR Hc.
  pose proof (setRule_not_function condition value R Hc) as Hs.
  split; [done|].
  unfold call_setRule. rewrite HR. cbn [mbind option_bind]. by rewrite Hs.
Qed.

(** C9: [setRule] on a predicate that is already a key of the rule set puts
    the new value in the entry of that predicate, where it stands: the
    entries before and after it are as they were, the number of entries and
    the default are unchanged, and a context on which that predicate is the
    first to return true now gets the new value. *)
Theorem C9_setRule_same_predicate_replaces_in_place
    (R : Rules) (pre post : list (val * val)) (p v_old v_new : val) :
  Rules_inv R →
  getRules R = pre ++ (p, v_old) :: post →
  ∃ R',
    setRule p v_new R = Normal R' ∧
    getRules R' = pre ++ (p, v_new) :: post ∧
    length (getRules R') = length (getRules R) ∧
    getDefault R' = getDefault R ∧
    ∀ args, all_false args pre → call p args = Normal true →
            baseApplyRules args R' = (pre.*1 ++ [p], Normal v_new).
Proof.
  intros [Hf Hn] HR. unfold getRules, JsMap.entries in HR.
  unfold JsMap.keys in Hf, Hn.
  rewrite HR, fmap_app, fmap_cons in Hf, Hn. cbn [fst] in Hf, Hn.
  apply Forall_app in Hf as [_ [Hp _]%Forall_cons].
  apply NoDup_app in Hn as (_ & Hdisj & _).
  assert (p ∉ JsMap.keys pre) as Hfresh.
  { intros Hin. apply (Hdisj p Hin). apply list_elem_of_here. }
  exists {| _rules := JsMap.set p v_new (_rules R); _default := _default R |}.
  assert (JsMap.set p v_new (_rules R) = pre ++ (p, v_new) :: post) as Hset.
  { rewrite HR. by apply JsMap_set_present. }
  split_and!.
  - by apply setRule_function.
  - exact Hset.
  - unfold getRules, JsMap.entries. cbn [_rules]. rewrite Hset, HR.
    by rewrite !length_app.
  - reflexivity.
  - intros args Hpre Hpa. by apply (baseApplyRules_first_match _ _ pre post).
Qed.

(** C10: a cached result outlives later changes of the rule set. When the
    memoized [applyRules] has returned [v] for a [Rules] object and a
    context, then after any calls whatever ([setRule] and [setDefault] on
    that object among them) a call on that object with a context of the
    same serialization returns [v], invokes no predicate and leaves the
    store as it is. *)
Theorem C10_cache_survives_mutation
    (σ σ1 σ2 : Store) (rules : loc) (args args' : Args)
    (invoked : list val) (v : val) (cs : list client_call) :
  applyRules args rules σ = Some (invoked, Normal v, σ1) →
  exec_all cs σ1 = Some σ2 →
  JSON_stringify args' = JSON_stringify args →
  applyRules args' rules σ2 = Some ([], Normal v, σ2).
Proof.
  intros H Hcs Hk.
  assert (is_Some (heap σ1 !! rules) ∧
          cached σ1 rules (JSON_stringify args) = Some v) as [Hh1 Hc1].
  { apply applyRules_inv in H
      as (R & HR & Hh & _ & [(hit & Hc & _ & [= <-] & ->)|(_ & _ & Hc' & _)]).
    - eauto.
    - rewrite Hh. eauto. }
  apply exec_all_preserves in Hcs as [Hheap Hcache].
  destruct (Hheap rules Hh1) as [R2 HR2].
  apply (applyRules_hit _ _ _ R2); [done|].
  rewrite Hk. by apply Hcache.
Qed.

(** ** Further properties of the builder *)

Lemma JsMap_set_elem_of (k v : val) (m : JsMap.t) (e : val * val) :
  NoDup (JsMap.keys m) →
  e ∈ JsMap.set k v m ↔ e = (k, v) ∨ (e.1 ≠ k ∧ e ∈ m).
Proof.
  unfold JsMap.keys. induction m as [|[k' v'] m IH]; cbn [JsMap.set].
  - intros _. rewrite list_elem_of_singleton. split; [eauto|].
    intros [?|[_ H]]; [done|]. by apply elem_of_nil in H.
  - rewrite fmap_cons. cbn [fst]. intros [Hk' Hn]%NoDup_cons.
    destruct (decide (k' = k)) as [->|Hne].
    + rewrite !elem_of_cons. split.
      * intros [->|H]; [by left|]. right. split; [|by right].
        intros He. apply Hk'. rewrite <- He.
        apply list_elem_of_fmap. by exists e.
      * intros [->|[He [->|H]]]; [by left | done | by right].
    + rewrite elem_of_cons, (IH Hn), elem_of_cons. split.
      * intros [->|[->|[He H]]]; [right; by eauto | by left | right; by eauto].
      * intros [->|[He [->|H]]]; [right; by left | by left | right; by eauto].
Qed.

Lemma all_false_or_some_match (args : Args) (entries : list (val * val)) :
  Forall is_function entries.*1 →
  all_false args entries ∨ ∃ e, e ∈ entries ∧ call e.1 args = Normal true.
Proof.
  induction entries as [|[q w] rest IH]; [intros _; left; apply Forall_nil_2|].
  rewrite fmap_cons. cbn [fst]. intros [Hq Hf]%Forall_cons.
  apply is_function_VFun in Hq as [f ->].
  destruct (fn_body f args) eqn:Hb.
  - right. exists (VFun f, w). split; [apply list_elem_of_here|].
    cbn. by rewrite Hb.
  - destruct (IH Hf) as [Hall|(e & He & Hm)].
    + left. apply Forall_cons. split; [|done]. cbn. by rewrite Hb.
    + right. exists e. split; [by apply list_elem_of_further | done].
Qed.

(** X1: [setRule] with a predicate that is not yet a key puts the new entry
    after all the others and changes nothing else; on a context that one of
    the old rules matches, evaluation invokes and returns what it did
    before, and on a context that none of them matches it invokes the new
    predicate last and returns its value if the predicate returns true. *)
Theorem setRule_new_predicate_goes_last
    (R : Rules) (condition value : val) (args : Args) :
  Rules_inv R →
  is_function condition →
  condition ∉ JsMap.keys (_rules R) →
  ∃ R',
    setRule condition value R = Normal R' ∧
    getRules R' = getRules R ++ [(condition, value)] ∧
    getDefault R' = getDefault R ∧
    (some_match args R → baseApplyRules args R' = baseApplyRules args R) ∧
    (no_match args R → call condition args = Normal true →
     baseApplyRules args R' = ((getRules R).*1 ++ [condition], Normal value)).
Proof.
  intros [Hf Hn] Hc Hfresh.
  exists {| _rules := _rules R ++ [(condition, value)]; _default := _default R |}.
  split_and!.
  - rewrite (setRule_function _ _ _ Hc). by rewrite JsMap_set_fresh.
  - reflexivity.
  - reflexivity.
  - intros Hm.
    destruct (first_match_split args (getRules R) Hf Hm)
      as (pre & p & v & post & Hsplit & Hpre & Hp).
    rewrite (baseApplyRules_first_match _ _ _ _ _ _ Hsplit Hpre Hp).
    apply (baseApplyRules_first_match _ _ pre (post ++ [(condition, value)]));
      [|done..].
    unfold getRules, JsMap.entries in *. cbn [_rules]. rewrite Hsplit.
    by rewrite <- app_assoc.
  - intros Hno Hca.
    by apply (baseApplyRules_first_match _ _ (getRules R) []).
Qed.

(** X2: [setDefault] and [setRule] can be called in either order: the rule
    set is the same, and so is the failure when the condition is not a
    function; a second [setDefault] replaces the first. *)
Theorem setDefault_commutes_with_setRule
    (R : Rules) (condition value d d' : val) :
  setRule condition value (setDefault d R) =
    match setRule condition value R with
    | Normal R' => Normal (setDefault d R')
    | Throw e => Throw e
    end ∧
  setDefault d' (setDefault d R) = setDefault d' R.
Proof.
  split; [|reflexivity]. unfold setRule.
  by destruct (negb (String.eqb (typeof condition) "function")).
Qed.

(** X3: after [setRule(condition, value)] the rule set has the entry
    (condition, value) and no other entry for that predicate; the entries
    of the other predicates are those it had. *)
Theorem setRule_then_getRules
    (R : Rules) (condition value : val) :
  Rules_inv R →
  is_function condition →
  ∃ R',
    setRule condition value R = Normal R' ∧
    Rules_inv R' ∧
    (condition, value) ∈ getRules R' ∧
    (∀ w, (condition, w) ∈ getRules R' → w = value) ∧
    (∀ k w, k ≠ condition → (k, w) ∈ getRules R' ↔ (k, w) ∈ getRules R).
Proof.
  intros HR Hc.
  pose proof (setRule_function condition value R Hc) as Hs.
  eexists. split; [exact Hs|].
  destruct HR as [Hf Hn]. unfold getRules, JsMap.entries. cbn [_rules].
  split_and!.
  - by apply (setRule_inv condition value R); [split|].
  - apply JsMap_set_elem_of; [done | by left].
  - intros w [[= ->]|[Hne _]]%JsMap_set_elem_of; done.
  - intros k w Hk. rewrite JsMap_set_elem_of by done. split.
    + intros [[= -> _]|[_ H]]; done.
    + intros H. right. by split.
Qed.

(** ** Further properties of the evaluator *)

Lemma for_of_rules_invoked_prefix (args : Args) (entries : list (val * val)) :
  (for_of_rules args entries).1 `prefix_of` entries.*1.
Proof.
  induction entries as [|[p v] rest IH]; [done|].
  cbn [for_of_rules]. rewrite fmap_cons. cbn [fst].
  destruct (call p args) as [[|]|e]; cbn [fst].
  - apply prefix_cons, prefix_nil.
  - destruct (for_of_rules args rest) as [t r]. by apply prefix_cons.
  - apply prefix_nil.
Qed.

Lemma baseApplyRules_invoked (args : Args) (R : Rules) :
  (baseApplyRules args R).1 = (for_of_rules args (getRules R)).1.
Proof.
  unfold baseApplyRules. destruct (for_of_rules args (getRules R)) as [t r].
  destruct r as [[v|]|e]; [done | | done].
  by destruct (strict_ne_null (getDefault R)).
Qed.

(** X4: the predicates the evaluator invokes are the first ones of the rule
    set, in insertion order, with none left out in between; on a rule set
    of the builder no predicate is invoked twice in one evaluation. *)
Theorem baseApplyRules_invokes_a_prefix (args : Args) (R : Rules) :
  (baseApplyRules args R).1 `prefix_of` (getRules R).*1 ∧
  (Rules_inv R → NoDup (baseApplyRules args R).1).
Proof.
  rewrite baseApplyRules_invoked.
  pose proof (for_of_rules_invoked_prefix args (getRules R)) as Hp.
  split; [done|]. intros [_ Hn]. destruct Hp as [rest Hrest].
  unfold JsMap.keys in Hn. unfold getRules, JsMap.entries in Hrest.
  rewrite Hrest in Hn. by apply NoDup_app in Hn as [? _].
Qed.


(** X6: on a rule set of the builder a value the evaluator returns is
    either the value of an entry whose predicate returns true while all
    predicates before it return false, or the default, which is then not
    [null], no predicate returning true. *)
Theorem baseApplyRules_returns_first_match_or_default
    (args : Args) (R : Rules) (invoked : list val) (v : val) :
  Rules_inv R →
  baseApplyRules args R = (invoked, Normal v) →
  (∃ pre p post,
     getRules R = pre ++ (p, v) :: post ∧
     all_false args pre ∧ call p args = Normal true ∧
     invoked = pre.*1 ++ [p])
  ∨ (no_match args R ∧ v = getDefault R ∧ v ≠ VNull ∧
     invoked = (getRules R).*1).
Proof.
  intros [Hf _] Hb.
  destruct (all_false_or_some_match args (getRules R) Hf) as [Hno|Hm].
  - right. rewrite (baseApplyRules_no_match _ _ Hno) in Hb.
    destruct (strict_ne_null (getDefault R)) eqn:Hd; [|discriminate].
    injection Hb as <- <-. split_and!; try done.
    by apply strict_ne_null_true.
  - left. destruct (first_match_split args (getRules R) Hf Hm)
      as (pre & p & w & post & Hsplit & Hpre & Hp).
    rewrite (baseApplyRules_first_match _ _ _ _ _ _ Hsplit Hpre Hp) in Hb.
    injection Hb as <- <-. by exists pre, p, post.
Qed.

(** X7: the order of the [setRule] calls decides between two predicates
    that both return true: on a context that no rule so far matches, adding
    [p] and then [q] makes evaluation return the value of [p], adding [q]
    and then [p] the value of [q]. *)
Theorem setRule_order_decides
    (R : Rules) (p q vp vq : val) (args : Args) :
  no_match args R →
  p ≠ q →
  p ∉ JsMap.keys (_rules R) →
  q ∉ JsMap.keys (_rules R) →
  call p args = Normal true →
  call q args = Normal true →
  ∃ Rp Rpq Rq Rqp,
    setRule p vp R = Normal Rp ∧ setRule q vq Rp = Normal Rpq ∧
    setRule q vq R = Normal Rq ∧ setRule p vp Rq = Normal Rqp ∧
    (baseApplyRules args Rpq).2 = Normal vp ∧
    (baseApplyRules args Rqp).2 = Normal vq.
Proof.
  intros Hno Hpq Hp Hq Hcp Hcq.
  assert (is_function p) as Hfp.
  { destruct p; cbn in Hcp; try discriminate. done. }
  assert (is_function q) as Hfq.
  { destruct q; cbn in Hcq; try discriminate. done. }
  assert (∀ a b va vb, is_function a → is_function b → a ≠ b →
            a ∉ JsMap.keys (_rules R) → b ∉ JsMap.keys (_rules R) →
            call a args = Normal true →
            ∃ Ra Rab, setRule a va R = Normal Ra ∧
                      setRule b vb Ra = Normal Rab ∧
                      (baseApplyRules args Rab).2 = Normal va) as Hgen.
  { intros a b va vb Hfa Hfb Hab Ha Hb Hca.
    exists {| _rules := _rules R ++ [(a, va)]; _default := _default R |},
      {| _rules := _rules R ++ (a, va) :: [(b, vb)]; _default := _default R |}.
    split_and!.
    - rewrite (setRule_function _ _ _ Hfa). by rewrite JsMap_set_fresh.
    - rewrite (setRule_function _ _ _ Hfb). cbn [_rules _default].
      rewrite JsMap_set_fresh.
      + by rewrite <- app_assoc.
      + unfold JsMap.keys in *. rewrite fmap_app. cbn.
        intros [?|Hin%list_elem_of_singleton]%elem_of_app; [done|].
        congruence.
    - by rewrite (baseApplyRules_first_match args _ (getRules R) [(b, vb)] a va). }
  destruct (Hgen p q vp vq) as (Rp & Rpq & H1 & H2 & H3); try done.
  destruct (Hgen q p vq vp) as (Rq & Rqp & H4 & H5 & H6); try done.
  by exists Rp, Rpq, Rq, Rqp.
Qed.

(** ** Further properties of the wrapper *)

Lemma cached_insert_inner (rules rules' : loc)
    (inner : gmap string val) (key : string) (c : gmap loc (gmap string val)) :
  (<[rules := inner]> c !! rules' ≫= λ innerCache, innerCache !! key) =
    if decide (rules = rules') then inner !! key
    else c !! rules' ≫= λ innerCache, innerCache !! key.
Proof.
  rewrite lookup_insert. by case_decide.
Qed.

Lemma applyRules_frame
    (args : Args) (rules : loc) (σ σ' : Store)
    (invoked : list val) (r : completion val) :
  applyRules args rules σ = Some (invoked, r, σ') →
  heap σ' = heap σ ∧
  (match r with
   | Normal v => cached σ' rules (JSON_stringify args) = Some v
   | Throw _ => cached σ' rules (JSON_stringify args) = None
   end) ∧
  ∀ rules' key, (rules', key) ≠ (rules, JSON_stringify args) →
                cached σ' rules' key = cached σ rules' key.
Proof.
  intros H.
  apply applyRules_inv in H as Hinv.
  destruct Hinv as (R & HR & Hh & _ & Hcases). split; [done|].
  split.
  { destruct Hcases as [(hit & Hc & _ & -> & ->)|(Hc & _ & Hc' & _)]; [done|].
    by destruct r. }
  intros rules' key Hne.
  unfold applyRules, memoize in H. rewrite HR in H.
  cbn [mbind option_bind] in H. unfold cached.
  destruct (cache σ !! rules) as [inner|] eqn:Hi.
  - cbn [default from_option id] in H. rewrite Hi in H.
    cbn [default from_option id] in H.
    destruct (inner !! JSON_stringify args) as [hit|] eqn:Hk.
    + by injection H as <- <- <-.
    + destruct (baseApplyRules args R) as [t [result|e]];
        injection H as <- <- <-; cbn [cache]; [|done].
      rewrite cached_insert_inner. case_decide as Hr; [|done].
      subst rules'. rewrite Hi. cbn [mbind option_bind].
      apply lookup_insert_ne. congruence.
  - rewrite lookup_insert_eq in H. cbn [default from_option id] in H.
    rewrite lookup_empty in H.
    destruct (baseApplyRules args R) as [t [result|e]];
      injection H as <- <- <-; cbn [cache].
    + rewrite insert_insert_eq, cached_insert_inner.
      case_decide as Hr; [|done]. subst rules'. rewrite Hi.
      cbn [mbind option_bind]. rewrite lookup_insert_ne by congruence.
      apply lookup_empty.
    + rewrite cached_insert_inner.
      case_decide as Hr; [|done]. subst rules'. rewrite Hi.
      apply lookup_empty.
Qed.

(** X8: a call of the memoized [applyRules] changes no [Rules] object, and
    in the cache it changes at most the entry of its own rule set and key:
    that entry holds the value returned, or stays absent when the call
    throws; every other entry, of this or of another object, is as it
    was. *)
Theorem applyRules_touches_one_cache_entry
    (args : Args) (rules : loc) (σ σ' : Store)
    (invoked : list val) (r : completion val) :
  applyRules args rules σ = Some (invoked, r, σ') →
  heap σ' = heap σ ∧
  (match r with
   | Normal v => cached σ' rules (JSON_stringify args) = Some v
   | Throw _ => cached σ' rules (JSON_stringify args) = None
   end) ∧
  ∀ rules' key, (rules', key) ≠ (rules, JSON_stringify args) →
                cached σ' rules' key = cached σ rules' key.
Proof. apply applyRules_frame. Qed.

(** X9: the cache goes by the identity of the [Rules] object, not by its
    content: when two objects hold the same rules, a call on the first does
    not spare the evaluation of the second. *)
Theorem applyRules_caches_per_object
    (args : Args) (rules1 rules2 : loc) (R : Rules) (σ σ1 : Store)
    (invoked : list val) (r : completion val) :
  rules1 ≠ rules2 →
  heap σ !! rules1 = Some R →
  heap σ !! rules2 = Some R →
  cached σ rules2 (JSON_stringify args) = None →
  applyRules args rules1 σ = Some (invoked, r, σ1) →
  ∃ σ2, applyRules args rules2 σ1 =
          Some ((baseApplyRules args R).1, (baseApplyRules args R).2, σ2).
Proof.
  intros Hne H1 H2 Hc Ha.
  apply applyRules_frame in Ha as (Hh & _ & Hframe).
  apply applyRules_miss; [by rewrite Hh|].
  rewrite Hframe; [done | congruence].
Qed.

Lemma applyRules_agrees (args : Args) (rules : loc) (σ σ' : Store)
    (invoked : list val) (r : completion val) :
  (∀ a b, JSON_stringify a = JSON_stringify b → a = b) →
  cache_agrees σ →
  applyRules args rules σ = Some (invoked, r, σ') →
  (∀ R, heap σ !! rules = Some R → r = (baseApplyRules args R).2) ∧
  cache_agrees σ'.
Proof.
  intros Hinj Hag Ha.
  apply applyRules_frame in Ha as Hfr. destruct Hfr as (Hh & Hnew & Hframe).
  apply applyRules_inv in Ha
    as (R & HR & _ & _ & [(hit & Hc & _ & -> & ->)|(Hc & Hb & _ & _)]).
  - split; [|done]. intros R' HR'.
    destruct (Hag _ _ _ Hc) as (R0 & HR0 & Hall).
    rewrite HR' in HR0. injection HR0 as <-. symmetry. by apply Hall.
  - split.
    + intros R' HR'. rewrite HR in HR'. injection HR' as <-. by rewrite Hb.
    + intros rules' key hit Hhit.
      destruct (decide ((rules', key) = (rules, JSON_stringify args)))
        as [[= -> ->]|Hne].
      * exists R. rewrite Hh. split; [done|].
        intros args' ->%Hinj. rewrite Hb. cbn [snd].
        destruct r as [v|e]; congruence.
      * rewrite (Hframe _ _ Hne) in Hhit. rewrite Hh. by apply Hag.
Qed.

Lemma exec_agrees (c : client_call) (σ σ' : Store) :
  (∀ a b, JSON_stringify a = JSON_stringify b → a = b) →
  cache_agrees σ →
  build_before_use c σ →
  exec c σ = Some σ' →
  cache_agrees σ'.
Proof.
  intros Hinj Hag Hb.
  destruct c as [|this condition value|this value|args rules0]; cbn [exec].
  - intros [= <-]. intros rules key hit Hhit.
    destruct (Hag _ _ _ Hhit) as (R & HR & Hall). exists R. split; [|done].
    cbn. rewrite lookup_insert_ne; [done|]. intros <-.
    pose proof (is_fresh (dom (heap σ))) as Hfresh.
    apply Hfresh, elem_of_dom. eauto.
  - unfold call_setRule. destruct (heap σ !! this) as [R|] eqn:HR; [|done].
    cbn. destruct (setRule condition value R) as [R'|e]; cbn;
      intros [= <-]; [|done].
    intros rules key hit Hhit.
    destruct (decide (rules = this)) as [->|Hne].
    + specialize (Hb key). unfold cached in Hhit, Hb. cbn [cache] in Hhit.
      congruence.
    + destruct (Hag rules key hit Hhit) as (R0 & HR0 & Hall).
      exists R0. split; [|done]. cbn. by rewrite lookup_insert_ne.
  - unfold call_setDefault. destruct (heap σ !! this) as [R|] eqn:HR; [|done].
    cbn. intros [= <-]. intros rules key hit Hhit.
    destruct (decide (rules = this)) as [->|Hne].
    + specialize (Hb key). unfold cached in Hhit, Hb. cbn [cache] in Hhit.
      congruence.
    + destruct (Hag rules key hit Hhit) as (R0 & HR0 & Hall).
      exists R0. split; [|done]. cbn. by rewrite lookup_insert_ne.
  - destruct (applyRules args rules0 σ) as [[[t r] σ1]|] eqn:Ha; [|done].
    cbn. intros [= <-]. by apply (applyRules_agrees _ _ _ _ _ _ Hinj Hag Ha).
Qed.

(** X10: memoization does not show, as long as the serialization tells
    contexts apart and every cache entry is what the evaluator returns on
    the object as it is now: the memoized [applyRules] then completes as
    the evaluator does on the object, whether it hits the cache or not, and
    the cache stays such. *)
Theorem applyRules_agrees_with_baseApplyRules
    (args : Args) (rules : loc) (R : Rules) (σ σ' : Store)
    (invoked : list val) (r : completion val) :
  (∀ a b, JSON_stringify a = JSON_stringify b → a = b) →
  cache_agrees σ →
  heap σ !! rules = Some R →
  applyRules args rules σ = Some (invoked, r, σ') →
  r = (baseApplyRules args R).2 ∧ cache_agrees σ'.
Proof.
  intros Hinj Hag HR Ha.
  destruct (applyRules_agrees _ _ _ _ _ _ Hinj Hag Ha) as [Hr Hag'].
  split; [by apply Hr | done].
Qed.

(** X11: a client that calls [setRule] and [setDefault] on an object only
    before it evaluates that object for the first time keeps the cache
    true to the evaluator, whatever else it calls, provided the
    serialization tells contexts apart. *)
Theorem build_before_use_keeps_cache_true
    (cs : list client_call) (σ σ' : Store) :
  (∀ a b, JSON_stringify a = JSON_stringify b → a = b) →
  cache_agrees σ →
  build_before_use_all cs σ →
  exec_all cs σ = Some σ' →
  cache_agrees σ'.
Proof.
  intros Hinj. revert σ.
  induction cs as [|c cs IH]; intros σ Hag Hb; cbn [exec_all].
  - by intros [= <-].
  - destruct (exec c σ) as [σ1|] eqn:Hc; [|done]. cbn. intros H.
    destruct Hb as [Hb Hrest].
    apply (IH σ1); [|by apply Hrest | done].
    by apply (exec_agrees c σ).
Qed.

(** X12: [setRule] and [setDefault] on an object leave the cache and every
    other object of the store as they were, and the store has the same
    objects after the call as before. *)
Theorem builder_calls_touch_one_object
    (c : client_call) (this : loc) (σ σ' : Store) :
  (∃ condition value, c = SetRule this condition value) ∨
  (∃ value, c = SetDefault this value) →
  exec c σ = Some σ' →
  cache σ' = cache σ ∧
  dom (heap σ') = dom (heap σ) ∧
  ∀ other, other ≠ this → heap σ' !! other = heap σ !! other.
Proof.
  intros [(condition & value & ->)|(value & ->)]; cbn [exec].
  - unfold call_setRule. destruct (heap σ !! this) as [R|] eqn:HR; [|done].
    cbn. destruct (setRule condition value R) as [R'|e]; cbn;
      intros [= <-]; [|done].
    cbn. split_and!; [done | |].
    + rewrite dom_insert_L. apply elem_of_dom_2 in HR.
      apply subseteq_union_1_L. by apply singleton_subseteq_l.
    + intros other Hne. by rewrite lookup_insert_ne.
  - unfold call_setDefault. destruct (heap σ !! this) as [R|] eqn:HR; [|done].
    cbn. intros [= <-]. cbn. split_and!; [done | |].
    + rewrite dom_insert_L. apply elem_of_dom_2 in HR.
      apply subseteq_union_1_L. by apply singleton_subseteq_l.
    + intros other Hne. by rewrite lookup_insert_ne.
Qed.

Lemma exec_Store_inv (c : client_call) (σ σ' : Store) :
  Store_inv σ → exec c σ = Some σ' → Store_inv σ'.
Proof.
  intros [Hobj Hdom].
  destruct c as [|this condition value|this value|args rules0]; cbn [exec].
  - intros [= <-]. split; cbn.
    + intros rules R. rewrite lookup_insert. case_decide.
      * intros [= <-]. apply new_Rules_inv.
      * apply Hobj.
    + intros rules Hc. rewrite lookup_insert. case_decide; [eauto | auto].
  - unfold call_setRule. destruct (heap σ !! this) as [R|] eqn:HR; [|done].
    cbn. destruct (setRule condition value R) as [R'|e] eqn:Hs; cbn;
      intros [= <-]; [|done].
    split; cbn.
    + intros rules R0. rewrite lookup_insert. case_decide.
      * intros [= <-]. by apply (setRule_inv condition value R); [eapply Hobj|].
      * apply Hobj.
    + intros rules Hc. rewrite lookup_insert. case_decide; [eauto | auto].
  - unfold call_setDefault. destruct (heap σ !! this) as [R|] eqn:HR; [|done].
    cbn. intros [= <-]. split; cbn.
    + intros rules R0. rewrite lookup_insert. case_decide.
      * intros [= <-]. apply setDefault_inv. by eapply Hobj.
      * apply Hobj.
    + intros rules Hc. rewrite lookup_insert. case_decide; [eauto | auto].
  - destruct (applyRules args rules0 σ) as [[[t r] σ1]|] eqn:Ha; [|done].
    cbn. intros [= <-].
    apply applyRules_inv in Ha as Hinv.
    destruct Hinv as (R & HR & Hh & _ & _).
    split; rewrite Hh; [done|].
    intros rules Hc.
    destruct (decide (rules = rules0)) as [->|Hne]; [eauto|].
    apply Hdom. revert Hc. clear -Ha Hne HR.
    unfold applyRules, memoize in Ha. rewrite HR in Ha.
    cbn [mbind option_bind] in Ha.
    destruct (cache σ !! rules0) as [inner|] eqn:Hi.
    + cbn [default from_option id] in Ha. rewrite Hi in Ha.
      cbn [default from_option id] in Ha.
      destruct (inner !! JSON_stringify args) as [hit|].
      * by injection Ha as <- <- <-.
      * destruct (baseApplyRules args R) as [t' [result|e]];
          injection Ha as <- <- <-; cbn [cache]; [|done].
        by rewrite lookup_insert_ne.
    + rewrite lookup_insert_eq in Ha. cbn [default from_option id] in Ha.
      rewrite lookup_empty in Ha.
      destruct (baseApplyRules args R) as [t' [result|e]];
        injection Ha as <- <- <-; cbn [cache].
      * by rewrite !lookup_insert_ne.
      * by rewrite lookup_insert_ne.
Qed.

(** X13: in every store a client reaches from the empty one, whatever it
    calls and in whatever order, each [Rules] object has function objects
    as keys, each of them once, and the cache holds inner maps for objects
    of the store only. *)
Theorem reachable_stores_are_well_formed
    (cs : list client_call) (σ : Store) :
  exec_all cs {| heap := ∅; cache := ∅ |} = Some σ →
  Store_inv σ.
Proof.
  assert (∀ σ0, Store_inv σ0 → exec_all cs σ0 = Some σ → Store_inv σ) as Hgen.
  { induction cs as [|c cs IH]; intros σ0 Hinv; cbn [exec_all].
    - by intros [= <-].
    - destruct (exec c σ0) as [σ1|] eqn:Hc; [|done]. cbn.
      apply IH. by apply (exec_Store_inv c σ0). }
  apply Hgen. split; cbn.
  - intros rules R. by rewrite lookup_empty.
  - intros rules [x Hx]. by rewrite lookup_empty in Hx.
Qed.

End Engine.

(** ** The test fixtures, evaluated *)

Import Fixtures.

Lemma largeRules_constructed : constructed largeRules.
Proof.
  apply (constructed_setRule new_Rules _ (VFun 0) (VStr "large"));
    [apply constructed_new | reflexivity].
Qed.

Lemma positiveRules_constructed : constructed positiveRules.
Proof.
  apply (constructed_setDefault
           {| _rules := [(VFun 1, VStr "positive")]; _default := VNull |}).
  apply (constructed_setRule new_Rules _ (VFun 1) (VStr "positive"));
    [apply constructed_new | reflexivity].
Qed.

Lemma sizeRules_constructed : constructed sizeRules.
Proof.
  apply (constructed_setRule
           {| _rules := [(VFun 0, VStr "large"); (VFun 1, VStr "positive")];
              _default := VNull |} _ (VFun 2) (VStr "any")); [|reflexivity].
  apply (constructed_setRule largeRules _ (VFun 1) (VStr "positive"));
    [apply largeRules_constructed | reflexivity].
Qed.

(** Scenario A of the tests: [{x: 5}] throws, [{x: 11}] gives 'large'. *)
Example scenario_A_small :
  baseApplyRules Args fn_body 5%Z largeRules =
    ([VFun 0],
     Throw (new_Error
              "Rules set is missing a default and no conditions were met.")).
Proof. reflexivity. Qed.

Example scenario_A_large :
  baseApplyRules Args fn_body 11%Z largeRules = ([VFun 0], Normal (VStr "large")).
Proof. reflexivity. Qed.

Example default_when_no_rule_matches :
  baseApplyRules Args fn_body (-1)%Z positiveRules =
    ([VFun 1], Normal (VStr "not positive")).
Proof. reflexivity. Qed.

(** ** The claims at the fixtures *)

(** On [{x: 5}] the three size rules invoke [x > 10] and [x > 0] and give
    'positive'; the rule that matches everything is not invoked. *)
Lemma C1_first_match_short_circuit_witness :
  ∃ pre p v post,
    getRules sizeRules = pre ++ (p, v) :: post ∧
    all_false Args fn_body 5%Z pre ∧
    call Args fn_body p 5%Z = Normal true ∧
    baseApplyRules Args fn_body 5%Z sizeRules = (pre.*1 ++ [p], Normal v) ∧
    Forall (λ e, e.1 ∉ pre.*1 ++ [p]) post ∧
    (cached (store_of sizeRules) 0 (JSON_stringify 5%Z) = None →
     ∃ σ', applyRules Args JSON_stringify fn_body 5%Z 0 (store_of sizeRules)
           = Some (pre.*1 ++ [p], Normal v, σ')).
Proof.
  apply (C1_first_match_short_circuit Args JSON_stringify fn_body
           (store_of sizeRules) 0 sizeRules 5%Z).
  - reflexivity.
  - apply constructed_inv, sizeRules_constructed.
  - exists (VFun 1, VStr "positive"). split; [|reflexivity].
    apply list_elem_of_further, list_elem_of_here.
Defined.

Lemma C2_default_null_is_the_sentinel_witness :
  (VBool false ≠ VNull →
   baseApplyRules Args fn_body 5%Z (setDefault (VBool false) largeRules)
     = ((getRules largeRules).*1, Normal (VBool false)) ∧
   getDefault (setDefault (VBool false) largeRules) = VBool false ∧
   getDefault (setDefault (VBool false) largeRules) ≠ getDefault new_Rules) ∧
  (VBool false = VNull →
   baseApplyRules Args fn_body 5%Z (setDefault (VBool false) largeRules) =
     ((getRules largeRules).*1,
      Throw (new_Error
               "Rules set is missing a default and no conditions were met.")) ∧
   getDefault (setDefault (VBool false) largeRules) = getDefault new_Rules).
Proof.
  apply (C2_default_null_is_the_sentinel Args fn_body
           largeRules (VBool false) 5%Z).
  repeat constructor.
Defined.

Lemma C3_errors_differ_by_message_only_witness :
  ∃ e1 e2,
    setRule (VStr "not-a-function") (VStr "invalid") new_Rules = Throw e1 ∧
    (baseApplyRules Args fn_body 5%Z largeRules).2 = Throw e2 ∧
    name e1 = "Error" ∧ name e2 = "Error" ∧
    message e1 = "Rule condition must be a function." ∧
    message e2 = "Rules set is missing a default and no conditions were met." ∧
    message e1 ≠ message e2.
Proof.
  apply (C3_errors_differ_by_message_only Args fn_body
           (VStr "not-a-function") (VStr "invalid") new_Rules largeRules 5%Z).
  - discriminate.
  - reflexivity.
  - repeat constructor.
Defined.

Lemma C4_failures_are_not_cached_witness :
  cached (store_with_inner largeRules ∅) 0 (JSON_stringify 5%Z) = None ∧
  ∃ R, heap (store_with_inner largeRules ∅) !! 0 = Some R ∧
    baseApplyRules Args fn_body 5%Z R =
      ([VFun 0],
       Throw (new_Error
                "Rules set is missing a default and no conditions were met.")) ∧
    applyRules Args JSON_stringify fn_body 5%Z 0
        (store_with_inner largeRules ∅) =
      Some ([VFun 0],
            Throw (new_Error
                     "Rules set is missing a default and no conditions were met."),
            store_with_inner largeRules ∅) ∧
    ∀ args', JSON_stringify args' = JSON_stringify 5%Z →
      ∃ σ'', applyRules Args JSON_stringify fn_body args' 0
               (store_with_inner largeRules ∅) =
             Some ((baseApplyRules Args fn_body args' R).1,
                   (baseApplyRules Args fn_body args' R).2, σ'').
Proof.
  apply (C4_failures_are_not_cached Args JSON_stringify fn_body
           (store_of largeRules)).
  vm_compute. reflexivity.
Defined.

Lemma C5_second_call_hits_after_success_witness :
  applyRules Args JSON_stringify fn_body 11%Z 0
      (store_with_inner positiveRules {[ JSON_stringify 11%Z := VStr "positive" ]})
  = Some ([], Normal (VStr "positive"),
          store_with_inner positiveRules
            {[ JSON_stringify 11%Z := VStr "positive" ]}).
Proof.
  apply (C5_second_call_hits_after_success Args JSON_stringify fn_body
           (store_of positiveRules) _ 0 11%Z 11%Z [VFun 1]).
  - vm_compute. reflexivity.
  - reflexivity.
Defined.

Lemma C6_no_match_no_default_throws_witness :
  baseApplyRules Args fn_body 5%Z largeRules =
    ((getRules largeRules).*1,
     Throw (new_Error
              "Rules set is missing a default and no conditions were met.")) ∧
  (cached (store_of largeRules) 0 (JSON_stringify 5%Z) = None →
   ∃ σ', applyRules Args JSON_stringify fn_body 5%Z 0 (store_of largeRules) =
           Some ((getRules largeRules).*1,
                 Throw (new_Error
                   "Rules set is missing a default and no conditions were met."),
                 σ')).
Proof.
  apply (C6_no_match_no_default_throws Args JSON_stringify fn_body
           (store_of largeRules) 0 largeRules 5%Z).
  - reflexivity.
  - reflexivity.
  - repeat constructor.
Defined.

Lemma C7_no_match_returns_default_witness :
  baseApplyRules Args fn_body (-1)%Z positiveRules =
    ((getRules positiveRules).*1, Normal (getDefault positiveRules)) ∧
  (cached (store_of positiveRules) 0 (JSON_stringify (-1)%Z) = None →
   ∃ σ', applyRules Args JSON_stringify fn_body (-1)%Z 0
           (store_of positiveRules) =
         Some ((getRules positiveRules).*1, Normal (getDefault positiveRules), σ')).
Proof.
  apply (C7_no_match_returns_default Args JSON_stringify fn_body
           (store_of positiveRules) 0 positiveRules (-1)%Z).
  - reflexivity.
  - discriminate.
  - repeat constructor.
Defined.

Lemma C8_setRule_rejects_non_function_witness :
  setRule (VStr "not-a-function") (VStr "invalid") positiveRules =
    Throw (new_Error "Rule condition must be a function.") ∧
  call_setRule 0 (VStr "not-a-function") (VStr "invalid")
      (store_of positiveRules) =
    Some (Throw (new_Error "Rule condition must be a function."),
          store_of positiveRules).
Proof.
  apply (C8_setRule_rejects_non_function (store_of positiveRules) 0
           positiveRules (VStr "not-a-function") (VStr "invalid")).
  - reflexivity.
  - discriminate.
Defined.

Lemma C9_setRule_same_predicate_replaces_in_place_witness :
  ∃ R',
    setRule (VFun 1) (VStr "small") sizeRules = Normal R' ∧
    getRules R' =
      [(VFun 0, VStr "large")] ++ (VFun 1, VStr "small") :: [(VFun 2, VStr "any")] ∧
    length (getRules R') = length (getRules sizeRules) ∧
    getDefault R' = getDefault sizeRules ∧
    ∀ args, all_false Args fn_body args [(VFun 0, VStr "large")] →
            call Args fn_body (VFun 1) args = Normal true →
            baseApplyRules Args fn_body args R' =
              ([(VFun 0, VStr "large")].*1 ++ [VFun 1], Normal (VStr "small")).
Proof.
  apply (C9_setRule_same_predicate_replaces_in_place Args fn_body sizeRules
           [(VFun 0, VStr "large")] [(VFun 2, VStr "any")]
           (VFun 1) (VStr "positive") (VStr "small")).
  - apply constructed_inv, sizeRules_constructed.
  - reflexivity.
Defined.

(** After 'positive' has been cached for [{x: 11}], the rule of [x > 0] is
    given another value, a rule and a default are added and a bad call is
    made; the memoized call still answers 'positive'. *)
Lemma C10_cache_survives_mutation_witness :
  applyRules Args JSON_stringify fn_body 11%Z 0
      (store_with_inner
         {| _rules := [(VFun 1, VStr "changed"); (VFun 2, VStr "any")];
            _default := VStr "zero" |}
         {[ JSON_stringify 11%Z := VStr "positive" ]})
  = Some ([], Normal (VStr "positive"),
          store_with_inner
            {| _rules := [(VFun 1, VStr "changed"); (VFun 2, VStr "any")];
               _default := VStr "zero" |}
            {[ JSON_stringify 11%Z := VStr "positive" ]}).
Proof.
  apply (C10_cache_survives_mutation Args JSON_stringify fn_body
           (store_of positiveRules)
           (store_with_inner positiveRules
              {[ JSON_stringify 11%Z := VStr "positive" ]})
           _ 0 11%Z 11%Z [VFun 1] (VStr "positive")
           [SetRule Args 0 (VFun 2) (VStr "any");
            SetDefault Args 0 (VStr "zero");
            SetRule Args 0 (VFun 1) (VStr "changed");
            SetRule Args 0 (VStr "not-a-function") VNull]).
  - vm_compute. reflexivity.
  - vm_compute. reflexivity.
  - reflexivity.
Defined.

(** ** Where the code departs from the specification *)

(** Against C2: [setDefault(null)] on a new rule set gives back the state
    of a new rule set, the accessor gives [null] as it does when no
    default was set, and evaluation throws instead of returning [null]. *)
Lemma C2_counterexample_setDefault_null :
  no_match Args fn_body 5%Z (setDefault VNull new_Rules) ∧
  setDefault VNull new_Rules = new_Rules ∧
  getDefault (setDefault VNull new_Rules) = getDefault new_Rules ∧
  baseApplyRules Args fn_body 5%Z (setDefault VNull new_Rules) =
    ([], Throw (new_Error
                  "Rules set is missing a default and no conditions were met.")) ∧
  (baseApplyRules Args fn_body 5%Z (setDefault VNull new_Rules)).2
    ≠ Normal VNull.
Proof.
  split_and!; [apply Forall_nil_2 | reflexivity | reflexivity | reflexivity |].
  discriminate.
Qed.

(** Against C3: the error of the builder and the error of the evaluator
    have the same kind, [Error]. *)
Lemma C3_counterexample_same_error_kind :
  ∃ e1 e2,
    setRule (VStr "not-a-function") (VStr "invalid") new_Rules = Throw e1 ∧
    baseApplyRules Args fn_body 5%Z largeRules = ([VFun 0], Throw e2) ∧
    name e1 = name e2.
Proof.
  exists (new_Error "Rule condition must be a function."),
    (new_Error "Rules set is missing a default and no conditions were met.").
  split_and!; reflexivity.
Qed.

(** Against C5: on the rule set of scenario A and [{x: 5}] the first call
    throws, and the second call with the same rule set and context invokes
    the predicate again. *)
Lemma C5_counterexample_second_call_after_failure :
  applyRules Args JSON_stringify fn_body 5%Z 0 (store_of largeRules) =
    Some ([VFun 0],
          Throw (new_Error
                   "Rules set is missing a default and no conditions were met."),
          store_with_inner largeRules ∅) ∧
  applyRules Args JSON_stringify fn_body 5%Z 0 (store_with_inner largeRules ∅) =
    Some ([VFun 0],
          Throw (new_Error
                   "Rules set is missing a default and no conditions were met."),
          store_with_inner largeRules ∅).
Proof. split; vm_compute; reflexivity. Qed.

(** ** The rule sets of the test fixtures *)

Lemma userRoleRules_constructed : constructed UserRoles.userRoleRules.
Proof.
  apply (constructed_setDefault
           {| _rules := _rules UserRoles.userRoleRules; _default := VNull |}).
  apply (constructed_setRule
           {| _rules := [(VFun 0, VStr "Administrator");
                         (VFun 1, VStr "Moderator")];
              _default := VNull |} _ (VFun 2) (VStr "Power User"));
    [|reflexivity].
  apply (constructed_setRule
           {| _rules := [(VFun 0, VStr "Administrator")]; _default := VNull |}
           _ (VFun 1) (VStr "Moderator")); [|reflexivity].
  apply (constructed_setRule new_Rules _ (VFun 0) (VStr "Administrator"));
    [apply constructed_new | reflexivity].
Qed.

(** X14: on every user the rule set [userRoleRules] gives what the chain of
    conditions it replaces gives: 'Administrator' when the name is 'admin',
    else 'Moderator' for a moderator, else 'Power User' above 100 posts,
    else 'Member'; it never throws. *)
Theorem userRoleRules_is_the_chain_of_conditions (args : UserRoles.Args) :
  (baseApplyRules UserRoles.Args UserRoles.fn_body args
     UserRoles.userRoleRules).2 =
    Normal (VStr
      (if bool_decide (UserRoles.User.username (UserRoles.user args) = "admin")
       then "Administrator"
       else if UserRoles.User.isModerator (UserRoles.user args)
       then "Moderator"
       else if bool_decide (100 < UserRoles.User.postCount (UserRoles.user args))%Z
       then "Power User"
       else "Member")).
Proof.
  destruct args as [[name posts moderator]].
  unfold baseApplyRules, UserRoles.userRoleRules, getRules, JsMap.entries.
  cbn [_rules for_of_rules call UserRoles.fn_body UserRoles.isAdmin
       UserRoles.isModerator UserRoles.isPowerUser UserRoles.user
       UserRoles.User.username UserRoles.User.isModerator
       UserRoles.User.postCount].
  destruct (bool_decide (name = "admin")); [reflexivity|].
  destruct moderator; [reflexivity|].
  destruct (bool_decide (100 < posts)%Z); reflexivity.
Qed.

Lemma shippingCostRules_base (args : Shipping.ShippingArgs.t) :
  (baseApplyRules _ Shipping.fn_body args Shipping.shippingCostRules).2 =
    Normal (VFun (if Shipping.fn_body Shipping.isHeavyAndInternational args
                  then 10
                  else if Shipping.ShippingArgs.isFragile args then 11 else 12)).
Proof.
  unfold baseApplyRules, Shipping.shippingCostRules, getRules, JsMap.entries.
  cbn [_rules for_of_rules call].
  change (Shipping.fn_body Shipping.isFragile args)
    with (Shipping.ShippingArgs.isFragile args).
  destruct (Shipping.fn_body Shipping.isHeavyAndInternational args);
    [reflexivity|].
  by destruct (Shipping.ShippingArgs.isFragile args).
Qed.

Lemma descriptionRules_base (args : Shipping.ShippingArgs.t) :
  (baseApplyRules _ Shipping.fn_body args Shipping.descriptionRules).2 =
    Normal (VStr (if Shipping.ShippingArgs.isHighValue args
                  then "Requires signature and insurance."
                  else if Shipping.ShippingArgs.isFragile args
                  then "Handled with extreme care."
                  else "Standard international handling.")).
Proof.
  unfold baseApplyRules, Shipping.descriptionRules, getRules, JsMap.entries.
  cbn [_rules for_of_rules call].
  change (Shipping.fn_body Shipping.isFragile args)
    with (Shipping.ShippingArgs.isFragile args).
  change (Shipping.fn_body Shipping.isHighValue args)
    with (Shipping.ShippingArgs.isHighValue args).
  destruct (Shipping.ShippingArgs.isHighValue args); [reflexivity|].
  by destruct (Shipping.ShippingArgs.isFragile args).
Qed.

(** X15: the nested rules of the fixtures, resolved as the tests do, with
    nothing cached yet for the context: the cost is 150 for a weight above
    50 going abroad, else 55 for a fragile parcel, else 25, and the
    description comes from [descriptionRules] through the nested memoized
    call. The two rule sets share the key of the context and do not mix
    their entries: a second resolution returns the same and invokes no
    predicate. *)
Theorem nested_shipping_rules_resolve
    (JSON_stringify : Shipping.ShippingArgs.t -> string)
    (args : Shipping.ShippingArgs.t) (σ : Store) (costs descriptions : loc) :
  costs ≠ descriptions →
  heap σ !! costs = Some Shipping.shippingCostRules →
  heap σ !! descriptions = Some Shipping.descriptionRules →
  cached σ costs (JSON_stringify args) = None →
  cached σ descriptions (JSON_stringify args) = None →
  let result :=
    {| Shipping.cost :=
         if bool_decide (50 < Shipping.ShippingArgs.weight args)%Z &&
            match Shipping.ShippingArgs.destination args with
            | Shipping.international => true
            | Shipping.domestic => false
            end
         then 150%Z
         else if Shipping.ShippingArgs.isFragile args then 55%Z else 25%Z;
       Shipping.description :=
         VStr (if Shipping.ShippingArgs.isHighValue args
               then "Requires signature and insurance."
               else if Shipping.ShippingArgs.isFragile args
               then "Handled with extreme care."
               else "Standard international handling.") |} in
  ∃ invoked σ',
    resolve_nested _ JSON_stringify Shipping.fn_body Shipping.resolver_cost
      costs descriptions args σ = Some (invoked, Normal result, σ') ∧
    resolve_nested _ JSON_stringify Shipping.fn_body Shipping.resolver_cost
      costs descriptions args σ' = Some ([], Normal result, σ').
Proof.
  intros Hne Hc Hd Hkc Hkd result.
  destruct (applyRules_miss _ JSON_stringify Shipping.fn_body args costs σ _
              Hc Hkc) as [σ1 H1].
  rewrite shippingCostRules_base in H1.
  apply applyRules_frame in H1 as Hf1. destruct Hf1 as (Hh1 & Hnew1 & Hfr1).
  assert (cached σ1 descriptions (JSON_stringify args) = None) as Hkd1.
  { rewrite Hfr1; [done | congruence]. }
  rewrite <- Hh1 in Hc, Hd.
  destruct (applyRules_miss _ JSON_stringify Shipping.fn_body args
              descriptions σ1 _ Hd Hkd1) as [σ2 H2].
  rewrite descriptionRules_base in H2.
  apply applyRules_frame in H2 as Hf2. destruct Hf2 as (Hh2 & Hnew2 & Hfr2).
  assert (cached σ2 costs (JSON_stringify args) =
            Some (VFun (if Shipping.fn_body Shipping.isHeavyAndInternational args
                        then 10
                        else if Shipping.ShippingArgs.isFragile args
                        then 11 else 12))) as Hkc2.
  { rewrite Hfr2; [done | congruence]. }
  rewrite <- Hh2 in Hc, Hd.
  pose proof (applyRules_hit _ JSON_stringify Shipping.fn_body args costs σ2 _ _
                Hc Hkc2) as H3.
  pose proof (applyRules_hit _ JSON_stringify Shipping.fn_body args
                descriptions σ2 _ _ Hd Hnew2) as H4.
  assert (Shipping.resolver_cost
            (if Shipping.fn_body Shipping.isHeavyAndInternational args
             then 10
             else if Shipping.ShippingArgs.isFragile args then 11 else 12) =
          Some (Shipping.cost result)) as Hcost.
  { subst result. cbn [Shipping.cost Shipping.fn_body
                       Shipping.isHeavyAndInternational].
    destruct (bool_decide (50 < Shipping.ShippingArgs.weight args)%Z &&
              match Shipping.ShippingArgs.destination args with
              | Shipping.international => true
              | Shipping.domestic => false
              end); [reflexivity|].
    by destruct (Shipping.ShippingArgs.isFragile args). }
  eexists _, σ2. split.
  - unfold resolve_nested. rewrite H1. cbn [mbind option_bind].
    rewrite Hcost. cbn [mbind option_bind].
    unfold call_resolver. rewrite H2. cbn [mbind option_bind].
    reflexivity.
  - unfold resolve_nested. rewrite H3. cbn [mbind option_bind].
    rewrite Hcost. cbn [mbind option_bind].
    unfold call_resolver. rewrite H4. cbn [mbind option_bind].
    reflexivity.
Qed.

(** ** The serialization of the fixtures tells contexts apart *)

Lemma string_app_cons (c : Ascii.ascii) (s t : string) :
  String c s +:+ t = String c (s +:+ t).
Proof. reflexivity. Qed.

Lemma string_app_nil (t : string) : EmptyString +:+ t = t.
Proof. reflexivity. Qed.

Lemma string_length_app (s t : string) :
  String.length (s +:+ t) = String.length s + String.length t.
Proof.
  induction s as [|c s IH]; [done|].
  rewrite string_app_cons. cbn [String.length]. by rewrite IH.
Qed.

Lemma string_app_inj_r (s1 s2 t : string) : s1 +:+ t = s2 +:+ t → s1 = s2.
Proof.
  revert s2. induction s1 as [|c s1 IH]; intros [|c' s2] H;
    rewrite ?string_app_cons, ?string_app_nil in H.
  - done.
  - apply (f_equal String.length) in H. cbn [String.length] in H.
    rewrite string_length_app in H. lia.
  - apply (f_equal String.length) in H. cbn [String.length] in H.
    rewrite string_length_app in H. lia.
  - injection H as -> H. f_equal. by apply IH.
Qed.

Lemma Fixtures_JSON_stringify_inj (a b : Fixtures.Args) :
  Fixtures.JSON_stringify a = Fixtures.JSON_stringify b → a = b.
Proof.
  unfold Fixtures.JSON_stringify, Fixtures.dquote.
  rewrite !string_app_cons, !string_app_nil. intros [= H].
  apply string_app_inj_r in H. by apply (inj pretty).
Qed.

(** ** The further properties at the fixtures *)

Lemma setRule_new_predicate_goes_last_witness :
  ∃ R',
    setRule (VFun 1) (VStr "positive") largeRules = Normal R' ∧
    getRules R' = getRules largeRules ++ [(VFun 1, VStr "positive")] ∧
    getDefault R' = getDefault largeRules ∧
    (some_match Args fn_body 5%Z largeRules →
     baseApplyRules Args fn_body 5%Z R' =
       baseApplyRules Args fn_body 5%Z largeRules) ∧
    (no_match Args fn_body 5%Z largeRules →
     call Args fn_body (VFun 1) 5%Z = Normal true →
     baseApplyRules Args fn_body 5%Z R' =
       ((getRules largeRules).*1 ++ [VFun 1], Normal (VStr "positive"))).
Proof.
  apply (setRule_new_predicate_goes_last Args fn_body largeRules
           (VFun 1) (VStr "positive") 5%Z).
  - apply constructed_inv, largeRules_constructed.
  - reflexivity.
  - cbn. intros [[=]|H%elem_of_nil]%elem_of_cons. done.
Defined.

Lemma setRule_then_getRules_witness :
  ∃ R',
    setRule (VFun 1) (VStr "small") sizeRules = Normal R' ∧
    Rules_inv R' ∧
    (VFun 1, VStr "small") ∈ getRules R' ∧
    (∀ w, (VFun 1, w) ∈ getRules R' → w = VStr "small") ∧
    (∀ k w, k ≠ VFun 1 → (k, w) ∈ getRules R' ↔ (k, w) ∈ getRules sizeRules).
Proof.
  apply (setRule_then_getRules sizeRules (VFun 1) (VStr "small")).
  - apply constructed_inv, sizeRules_constructed.
  - reflexivity.
Defined.


Lemma baseApplyRules_returns_first_match_or_default_witness :
  (∃ pre p post,
     getRules sizeRules = pre ++ (p, VStr "positive") :: post ∧
     all_false Args fn_body 5%Z pre ∧
     call Args fn_body p 5%Z = Normal true ∧
     [VFun 0; VFun 1] = pre.*1 ++ [p])
  ∨ (no_match Args fn_body 5%Z sizeRules ∧
     VStr "positive" = getDefault sizeRules ∧
     VStr "positive" ≠ VNull ∧
     [VFun 0; VFun 1] = (getRules sizeRules).*1).
Proof.
  apply (baseApplyRules_returns_first_match_or_default Args fn_body
           5%Z sizeRules [VFun 0; VFun 1] (VStr "positive")).
  - apply constructed_inv, sizeRules_constructed.
  - reflexivity.
Defined.

Lemma setRule_order_decides_witness :
  ∃ Rp Rpq Rq Rqp,
    setRule (VFun 1) (VStr "positive") new_Rules = Normal Rp ∧
    setRule (VFun 2) (VStr "any") Rp = Normal Rpq ∧
    setRule (VFun 2) (VStr "any") new_Rules = Normal Rq ∧
    setRule (VFun 1) (VStr "positive") Rq = Normal Rqp ∧
    (baseApplyRules Args fn_body 5%Z Rpq).2 = Normal (VStr "positive") ∧
    (baseApplyRules Args fn_body 5%Z Rqp).2 = Normal (VStr "any").
Proof.
  apply (setRule_order_decides Args fn_body new_Rules (VFun 1) (VFun 2)
           (VStr "positive") (VStr "any") 5%Z).
  - apply Forall_nil_2.
  - discriminate.
  - apply not_elem_of_nil.
  - apply not_elem_of_nil.
  - reflexivity.
  - reflexivity.
Defined.

Lemma applyRules_touches_one_cache_entry_witness :
  heap (store_with_inner positiveRules
          {[ JSON_stringify 11%Z := VStr "positive" ]}) =
    heap (store_of positiveRules) ∧
  cached (store_with_inner positiveRules
            {[ JSON_stringify 11%Z := VStr "positive" ]}) 0
    (JSON_stringify 11%Z) = Some (VStr "positive") ∧
  ∀ rules' key, (rules', key) ≠ (0, JSON_stringify 11%Z) →
    cached (store_with_inner positiveRules
              {[ JSON_stringify 11%Z := VStr "positive" ]}) rules' key =
    cached (store_of positiveRules) rules' key.
Proof.
  apply (applyRules_touches_one_cache_entry Args JSON_stringify fn_body
           11%Z 0 (store_of positiveRules) _ [VFun 1] (Normal (VStr "positive"))).
  vm_compute. reflexivity.
Defined.

Lemma applyRules_caches_per_object_witness :
  ∃ σ2,
    applyRules Args JSON_stringify fn_body 11%Z 1
      {| heap := {[ 0 := positiveRules; 1 := positiveRules ]};
         cache := {[ 0 := {[ JSON_stringify 11%Z := VStr "positive" ]} ]} |} =
    Some ((baseApplyRules Args fn_body 11%Z positiveRules).1,
          (baseApplyRules Args fn_body 11%Z positiveRules).2, σ2).
Proof.
  apply (applyRules_caches_per_object Args JSON_stringify fn_body 11%Z 0 1
           positiveRules
           {| heap := {[ 0 := positiveRules; 1 := positiveRules ]}; cache := ∅ |}
           _ [VFun 1] (Normal (VStr "positive"))).
  - discriminate.
  - reflexivity.
  - reflexivity.
  - reflexivity.
  - vm_compute. reflexivity.
Defined.

Lemma applyRules_agrees_with_baseApplyRules_witness :
  Normal (VStr "positive") = (baseApplyRules Args fn_body 11%Z positiveRules).2 ∧
  cache_agrees Args JSON_stringify fn_body
    (store_with_inner positiveRules {[ JSON_stringify 11%Z := VStr "positive" ]}).
Proof.
  apply (applyRules_agrees_with_baseApplyRules Args JSON_stringify fn_body
           11%Z 0 positiveRules (store_of positiveRules) _ [VFun 1]).
  - apply Fixtures_JSON_stringify_inj.
  - intros rules key hit H. discriminate H.
  - reflexivity.
  - vm_compute. reflexivity.
Defined.

Lemma build_before_use_keeps_cache_true_witness :
  cache_agrees Args JSON_stringify fn_body
    (store_with_inner positiveRules {[ JSON_stringify 11%Z := VStr "positive" ]}).
Proof.
  apply (build_before_use_keeps_cache_true Args JSON_stringify fn_body
           [NewRules Args;
            SetRule Args 0 (VFun 1) (VStr "positive");
            SetDefault Args 0 (VStr "not positive");
            ApplyRules Args 11%Z 0;
            ApplyRules Args 11%Z 0]
           {| heap := ∅; cache := ∅ |}).
  - apply Fixtures_JSON_stringify_inj.
  - intros rules key hit H. discriminate H.
  - split; [exact I|]. intros σ1 [= <-].
    split; [intros key; reflexivity|]. intros σ2 [= <-].
    split; [intros key; reflexivity|]. intros σ3 [= <-].
    split; [exact I|]. intros σ4 [= <-].
    split; [exact I|]. intros σ5 _. exact I.
  - vm_compute. reflexivity.
Defined.

Lemma builder_calls_touch_one_object_witness :
  cache (store_with_inner sizeRules {[ JSON_stringify 5%Z := VStr "positive" ]}) =
    cache (store_with_inner
             {| _rules := [(VFun 0, VStr "large"); (VFun 1, VStr "positive")];
                _default := VNull |}
             {[ JSON_stringify 5%Z := VStr "positive" ]}) ∧
  dom (heap (store_with_inner sizeRules
               {[ JSON_stringify 5%Z := VStr "positive" ]})) =
    dom (heap (store_with_inner
                 {| _rules := [(VFun 0, VStr "large"); (VFun 1, VStr "positive")];
                    _default := VNull |}
                 {[ JSON_stringify 5%Z := VStr "positive" ]})) ∧
  ∀ other, other ≠ 0 →
    heap (store_with_inner sizeRules
            {[ JSON_stringify 5%Z := VStr "positive" ]}) !! other =
    heap (store_with_inner
            {| _rules := [(VFun 0, VStr "large"); (VFun 1, VStr "positive")];
               _default := VNull |}
            {[ JSON_stringify 5%Z := VStr "positive" ]}) !! other.
Proof.
  apply (builder_calls_touch_one_object Args JSON_stringify fn_body
           (SetRule Args 0 (VFun 2) (VStr "any")) 0).
  - left. by exists (VFun 2), (VStr "any").
  - vm_compute. reflexivity.
Defined.

Lemma reachable_stores_are_well_formed_witness :
  Store_inv (store_with_inner positiveRules
               {[ JSON_stringify 11%Z := VStr "positive" ]}).
Proof.
  apply (reachable_stores_are_well_formed Args JSON_stringify fn_body
           [NewRules Args;
            SetRule Args 0 (VFun 1) (VStr "positive");
            SetRule Args 0 (VStr "not-a-function") (VStr "invalid");
            SetDefault Args 0 (VStr "not positive");
            ApplyRules Args 11%Z 0]).
  vm_compute. reflexivity.
Defined.

(** The first test of the nested rules: weight 60, international, not
    fragile, of high value. *)
Lemma nested_shipping_rules_resolve_witness :
  ∃ invoked σ',
    resolve_nested _ Shipping.JSON_stringify Shipping.fn_body
      Shipping.resolver_cost 0 1
      (Shipping.ShippingArgs.mk 60 Shipping.international false true)
      (Shipping.store ∅) =
    Some (invoked,
          Normal {| Shipping.cost := 150;
                    Shipping.description :=
                      VStr "Requires signature and insurance." |}, σ') ∧
    resolve_nested _ Shipping.JSON_stringify Shipping.fn_body
      Shipping.resolver_cost 0 1
      (Shipping.ShippingArgs.mk 60 Shipping.international false true) σ' =
    Some ([],
          Normal {| Shipping.cost := 150;
                    Shipping.description :=
                      VStr "Requires signature and insurance." |}, σ').
Proof.
  apply (nested_shipping_rules_resolve Shipping.JSON_stringify
           (Shipping.ShippingArgs.mk 60 Shipping.international false true)
           (Shipping.store ∅) 0 1).
  - discriminate.
  - reflexivity.
  - reflexivity.
  - reflexivity.
  - reflexivity.
Defined.

Lemma baseApplyRules_invokes_a_prefix_witness :
  (baseApplyRules Args fn_body 5%Z sizeRules).1 `prefix_of` (getRules sizeRules).*1 ∧
  NoDup (baseApplyRules Args fn_body 5%Z sizeRules).1.
Proof.
  destruct (baseApplyRules_invokes_a_prefix Args fn_body 5%Z sizeRules)
    as [Hprefix Hnodup].
  split; [exact Hprefix|].
  apply Hnodup. apply constructed_inv, sizeRules_constructed.
Defined.
